(** * Vigenere cipher (main.c): shallow embedding and verification

    The C program normalises a passphrase ([correctKey]) and enciphers a
    text with it ([vigenere], through [calculateRotShift]).

    Data model.
    - A [char] and an [int] are integers in [Z].  Whether plain [char] is
      signed is left to the platform by C: it is the parameter
      [char_signed] of the conversion [to_char], which is written out at
      every place where the source stores an [int] into a [char].
    - A C string is the list of its characters before the terminator; the
      terminator itself sits at index [length s] and reads as [0].
    - A [char *] argument is an [option]: [None] is the NULL pointer.
    - The bytes around a string (index [-1], indexes past the terminator)
      belong to the surrounding memory.  They are a parameter of the
      functions that can reach them, and every index the code uses is
      recorded in the run, so that memory safety is a property of the
      recorded accesses.
    - [correctKey] calls [strcpy] on operands that overlap.  C leaves
      that call undefined, so what the C library does there is a
      parameter as well (the record [libc]). *)

From Stdlib Require Import ZArith List Bool Lia String Ascii.
Import ListNotations.
Local Open Scope Z_scope.

(** ** The enum AsciiRange *)

Module AsciiRange.
Definition uppercase_upper : Z := 90.
Definition uppercase_lower : Z := 65.
Definition lowercase_upper : Z := 122.
Definition lowercase_lower : Z := 97.
Definition range_distance : Z := 32.
End AsciiRange.
Import AsciiRange.

(** ** Machine integers *)

Definition INT_MAX : Z := 2147483647.

(** [int length = strlen(...)]: the conversion of a [size_t] to a 32-bit
    [int], with its wrap-around. *)
Definition int_of_size_t (n : Z) : Z :=
  (n + 2147483648) mod 4294967296 - 2147483648.

(** Conversion of an [int] to a [char] (8 bits). *)
Definition to_char (char_signed : bool) (z : Z) : Z :=
  if char_signed then (z + 128) mod 256 - 128 else z mod 256.

(** The characters of a literal, as their codes. *)
Definition chars (s : string) : list Z :=
  map (fun a => Z.of_N (N_of_ascii a)) (list_ascii_of_string s).

(** A well-formed C string: no embedded terminator, and a length that
    [int] can hold. *)
Definition cstring (s : list Z) : bool :=
  forallb (fun c => negb (c =? 0)) s && (Z.of_nat (List.length s) <=? INT_MAX).

(** ** Alphabet predicates *)

Definition isUppercase (c : Z) : bool :=
  (uppercase_lower <=? c) && (c <=? uppercase_upper).

Definition isLowercase (c : Z) : bool :=
  (lowercase_lower <=? c) && (c <=? lowercase_upper).

Definition inBounds (c : Z) : bool :=
  if isLowercase c || isUppercase c then true else false.

Definition getFloor (c : Z) : Z :=
  if isLowercase c then lowercase_lower else uppercase_lower.

(** ** calculateRotShift

    The arithmetic is done on [int]; C's [%] truncates towards zero, which
    is [Z.rem].  The result is converted to [char] on return. *)
Definition calculateRotShift (char_signed : bool) (c offset : Z) : Z :=
  let inFloor := getFloor c in
  let offsetFloor := getFloor offset in
  to_char char_signed
    (Z.rem ((c + offset) - (inFloor + offsetFloor)) 26 + inFloor).

(** The value of the modulo step of [calculateRotShift]. *)
Definition rotModStep (c offset : Z) : Z :=
  Z.rem ((c + offset) - (getFloor c + getFloor offset)) 26.

(** ** Basic facts on the predicates *)

Lemma isUppercase_spec c : isUppercase c = true <-> 65 <= c <= 90.
Proof. unfold isUppercase, uppercase_lower, uppercase_upper. lia. Qed.

Lemma isLowercase_spec c : isLowercase c = true <-> 97 <= c <= 122.
Proof. unfold isLowercase, lowercase_lower, lowercase_upper. lia. Qed.

Lemma inBounds_spec c :
  inBounds c = true <-> (97 <= c <= 122) \/ (65 <= c <= 90).
Proof.
  unfold inBounds.
  destruct (isLowercase c) eqn:L, (isUppercase c) eqn:U; simpl;
    rewrite <- isLowercase_spec, <- isUppercase_spec, L, U;
    intuition congruence.
Qed.

Lemma getFloor_lower c : 97 <= c <= 122 -> getFloor c = 97.
Proof.
  intros H. unfold getFloor.
  apply isLowercase_spec in H. now rewrite H.
Qed.

Lemma getFloor_upper c : 65 <= c <= 90 -> getFloor c = 65.
Proof.
  intros H. unfold getFloor.
  destruct (isLowercase c) eqn:L; [apply isLowercase_spec in L; lia | reflexivity].
Qed.

Lemma to_char_ascii sg z : 0 <= z <= 127 -> to_char sg z = z.
Proof.
  intros H. unfold to_char. destruct sg.
  - rewrite Z.mod_small; lia.
  - apply Z.mod_small; lia.
Qed.

(** The offset of a letter inside its case range. *)
Lemma letter_offset c :
  inBounds c = true -> 0 <= c - getFloor c <= 25 /\ (getFloor c = 65 \/ getFloor c = 97).
Proof.
  intros H. apply inBounds_spec in H. destruct H as [H | H].
  - rewrite (getFloor_lower _ H). lia.
  - rewrite (getFloor_upper _ H). lia.
Qed.

(** The rotation of a letter by a letter: the truncating [%] of C and
    the non-negative modulo agree, because the operand is not negative. *)
Lemma rot_letters (sg : bool) (c k : Z) :
  inBounds c = true -> inBounds k = true ->
  rotModStep c k = ((c - getFloor c) + (k - getFloor k)) mod 26
  /\ calculateRotShift sg c k = getFloor c + rotModStep c k
  /\ 0 <= rotModStep c k < 26.
Proof.
  intros Hc Hk.
  destruct (letter_offset c Hc) as [Oc Fc].
  destruct (letter_offset k Hk) as [Ok _].
  assert (E : (c + k) - (getFloor c + getFloor k)
              = (c - getFloor c) + (k - getFloor k)) by lia.
  assert (R : rotModStep c k = ((c - getFloor c) + (k - getFloor k)) mod 26).
  { unfold rotModStep. rewrite E. apply Z.rem_mod_nonneg; lia. }
  pose proof (Z.mod_pos_bound ((c - getFloor c) + (k - getFloor k)) 26
                ltac:(lia)) as B.
  rewrite <- R in B.
  split; [exact R | split; [| exact B]].
  unfold calculateRotShift. cbv zeta. fold (rotModStep c k).
  rewrite to_char_ascii by lia. lia.
Qed.

(** The rotated letter has the case of the letter that went in. *)
Lemma rot_same_case (sg : bool) (c k : Z) :
  inBounds c = true -> inBounds k = true ->
  inBounds (calculateRotShift sg c k) = true
  /\ isUppercase (calculateRotShift sg c k) = isUppercase c
  /\ isLowercase (calculateRotShift sg c k) = isLowercase c
  /\ getFloor (calculateRotShift sg c k) = getFloor c.
Proof.
  intros Hc Hk.
  destruct (rot_letters sg c k Hc Hk) as (_ & E & B).
  set (r := calculateRotShift sg c k) in *.
  apply inBounds_spec in Hc. destruct Hc as [Hc | Hc].
  - pose proof (getFloor_lower c Hc) as F. rewrite F in E.
    assert (Hr : 97 <= r <= 122) by lia.
    rewrite (getFloor_lower r Hr), F.
    repeat split.
    + apply inBounds_spec. now left.
    + transitivity false.
      * apply not_true_iff_false. rewrite isUppercase_spec. lia.
      * symmetry. apply not_true_iff_false. rewrite isUppercase_spec. lia.
    + transitivity true.
      * now apply isLowercase_spec.
      * symmetry. now apply isLowercase_spec.
  - pose proof (getFloor_upper c Hc) as F. rewrite F in E.
    assert (Hr : 65 <= r <= 90) by lia.
    rewrite (getFloor_upper r Hr), F.
    repeat split.
    + apply inBounds_spec. now right.
    + transitivity true.
      * now apply isUppercase_spec.
      * symmetry. now apply isUppercase_spec.
    + transitivity false.
      * apply not_true_iff_false. rewrite isLowercase_spec. lia.
      * symmetry. apply not_true_iff_false. rewrite isLowercase_spec. lia.
Qed.

(** C6.  For letters [c] and [k], [calculateRotShift c k] is
    [getFloor c + ((c - getFloor c) + (k - getFloor k)) mod 26] with the
    non-negative modulo; the value the code's own [%] step computes lies
    in [0,26), and the result lies in the 26-letter range of the case of
    [c]. *)
Theorem calculateRotShift_letters (char_signed : bool) (c k : Z)
    (Hc : inBounds c = true) (Hk : inBounds k = true) :
  calculateRotShift char_signed c k
    = getFloor c + ((c - getFloor c) + (k - getFloor k)) mod 26
  /\ 0 <= rotModStep c k < 26
  /\ getFloor c <= calculateRotShift char_signed c k <= getFloor c + 25.
Proof.
  destruct (rot_letters char_signed c k Hc Hk) as (R & E & B).
  rewrite E, <- R. repeat split; lia.
Qed.

Lemma calculateRotShift_letters_witness :
  inBounds 116 = true /\ inBounds 109 = true /\
  calculateRotShift true 116 109 = 102.
Proof.
  split; [reflexivity | split; [reflexivity |]].
  destruct (calculateRotShift_letters true 116 109 eq_refl eq_refl) as [E _].
  rewrite E. reflexivity.
Defined.

(** ** Memory around a string

    [str] is the string (terminator excluded), [outside] the bytes of the
    surrounding memory, by index relative to the start of the string. *)

Record mem : Type := { str : list Z; outside : Z -> Z }.

Definition strlen (m : mem) : Z := Z.of_nat (List.length (str m)).

(** [key[i]] as an rvalue.  Index [strlen m] holds the terminator. *)
Definition load (m : mem) (i : Z) : Z :=
  if (0 <=? i) && (i <? strlen m) then nth (Z.to_nat i) (str m) 0
  else if i =? strlen m then 0
  else outside m i.

Fixpoint set_nth (n : nat) (v : Z) (l : list Z) : list Z :=
  match l, n with
  | [], _ => []
  | _ :: l', O => v :: l'
  | x :: l', S n' => x :: set_nth n' v l'
  end.

(** [key[i] = v].  A store outside the string lands in the surrounding
    memory.  (The code stores only where it has just read an uppercase
    letter, hence never over the terminator.) *)
Definition store (m : mem) (i v : Z) : mem :=
  if (0 <=? i) && (i <? strlen m)
  then {| str := set_nth (Z.to_nat i) v (str m); outside := outside m |}
  else {| str := str m;
          outside := fun j => if j =? i then v else outside m j |}.

(** ** The overlapping [strcpy]

    [correctKey] drops a character with [strcpy(&key[i], &key[i + 1])]:
    the source string starts one place after the destination, so the two
    operands overlap, and C leaves the behaviour of [strcpy] undefined
    there.  What the C library does on that call is therefore a parameter
    of the model: [strcpy_overlap i t] is the string found at index [i]
    after the call, [t] being the string that stood at index [i + 1].  The
    libraries considered move the bytes of [t], as many as there are, and
    put the terminator behind them; which byte lands where is left to
    each of them. *)
Record libc : Type :=
  { strcpy_overlap : Z -> list Z -> list Z;
    strcpy_overlap_length :
      forall i t, List.length (strcpy_overlap i t) = List.length t;
    strcpy_overlap_chars :
      forall i t c, In c (strcpy_overlap i t) -> In c t }.

(** A library that copies byte by byte from the low addresses up: every
    byte is read before its place is overwritten, and the string arrives
    intact. *)
Definition forward_libc : libc :=
  {| strcpy_overlap := fun _ t => t;
     strcpy_overlap_length := fun _ _ => eq_refl;
     strcpy_overlap_chars := fun _ _ _ H => H |}.

(** A library that copies a string of 5 to 8 bytes (terminator included)
    in two windows of four bytes, the first four and the last four, and
    stores the first window before it loads the second.  One place to the
    left of its source, the first store overwrites bytes the second load
    still has to read.  [mem] below is the memory from the destination on
    after the first store. *)
Definition two_windows (t : list Z) : list Z :=
  let n := S (List.length t) in
  if (5 <=? n)%nat && (n <=? 8)%nat
  then
    let mem := firstn 4 t ++ skipn 3 (t ++ [0]) in
    firstn (n - 4) mem ++ firstn 3 (skipn (n - 3) mem)
  else t.

Lemma two_windows_length (t : list Z) :
  List.length (two_windows t) = List.length t.
Proof.
  destruct t as [| a [| b [| c [| d [| e [| f [| g [| h t]]]]]]]];
    reflexivity.
Qed.

Lemma two_windows_chars (t : list Z) (x : Z) :
  In x (two_windows t) -> In x t.
Proof.
  destruct t as [| a [| b [| c [| d [| e [| f [| g [| h t]]]]]]]];
    cbn; try tauto.
Qed.

Definition two_window_libc : libc :=
  {| strcpy_overlap := fun _ t => two_windows t;
     strcpy_overlap_length := fun _ t => two_windows_length t;
     strcpy_overlap_chars := fun _ t c => two_windows_chars t c |}.

(** [strcpy(&key[i], &key[i + 1])] for [0 <= i < strlen]: the characters
    in front of index [i] stay, and the library leaves the rest. *)
Definition strcpy_left (L : libc) (m : mem) (i : Z) : mem :=
  {| str := firstn (Z.to_nat i) (str m)
            ++ strcpy_overlap L i (skipn (S (Z.to_nat i)) (str m));
     outside := outside m |}.

(** An access: the index used on the buffer, and the length of the string
    at that moment. *)
Definition access : Type := (Z * Z)%type.

Definition acc (m : mem) (i : Z) : access := (i, strlen m).

(** The index lies between 0 and the current length (the terminator). *)
Definition in_buffer (a : access) : bool :=
  (0 <=? fst a) && (fst a <=? snd a).

(** What a function hands back: NULL, a string, or nothing because the
    loop of the model ran out of fuel ([correctKey_fuel] shows that this
    never happens). *)
Inductive pointer : Type :=
| Null
| Ptr (s : list Z)
| OutOfFuel.

(** The lines the error exits print. *)
Inductive diagnostic : Type :=
| CorrectKeyKeyNull
| VigenerePlainTextNull
| VigenereKeyNull.

(** ** correctKey *)

Section CorrectKey.
Variable L : libc.
Variable char_signed : bool.

(** One turn of the [for] loop body: the state after the body, before
    [i++], and the accesses it made.  The accesses are, in order: the
    read of [key[i]] for [inBounds]; when the character is dropped, the
    two operands [&key[i]] and [&key[i + 1]] of [strcpy]; the read of
    [key[i]] for [isUppercase], with the [i] of that moment; and the
    store of [key[i] += range_distance] when that test holds. *)
Definition correctKey_body (i length : Z) (m : mem)
  : Z * Z * mem * list access :=
  let '(i1, length1, m1, log1) :=
    if negb (inBounds (load m i))
    then (i - 1, length - 1, strcpy_left L m i,
          [acc m i; acc m i; acc m (i + 1)])
    else (i, length, m, [acc m i]) in
  if isUppercase (load m1 i1)
  then (i1, length1,
        store m1 i1 (to_char char_signed (load m1 i1 + range_distance)),
        log1 ++ [acc m1 i1; acc m1 i1])
  else (i1, length1, m1, log1 ++ [acc m1 i1]).

Fixpoint correctKey_loop (fuel : nat) (i length : Z) (m : mem)
  : option (mem * list access) :=
  if i <? length then
    match fuel with
    | O => None
    | S fuel' =>
        let '(i1, length1, m1, log) := correctKey_body i length m in
        match correctKey_loop fuel' (i1 + 1) length1 m1 with
        | Some (m', log') => Some (m', log ++ log')
        | None => None
        end
    end
  else Some (m, []).

Record key_run : Type :=
  { key_ret : pointer;
    key_accesses : list access;
    key_printed : list diagnostic }.

(** [realloc] to [strlen(key) + 1] bytes keeps the string (allocation
    failure is not modelled); the final store rewrites the terminator. *)
Definition correctKey (around : Z -> Z) (key : option (list Z)) : key_run :=
  match key with
  | None =>
      {| key_ret := Null; key_accesses := [];
         key_printed := [CorrectKeyKeyNull] |}
  | Some s =>
      let m := {| str := s; outside := around |} in
      let length := int_of_size_t (strlen m) in
      match correctKey_loop (Z.to_nat length) 0 length m with
      | Some (m', log) =>
          {| key_ret := Ptr (str m');
             key_accesses := log ++ [acc m' (strlen m')];
             key_printed := [] |}
      | None =>
          {| key_ret := OutOfFuel; key_accesses := []; key_printed := [] |}
      end
  end.
End CorrectKey.

(** What the specification asks of normalisation: keep the letters, in
    order, and fold the uppercase ones by the case distance. *)
Definition toLower (c : Z) : Z :=
  if isUppercase c then c + range_distance else c.

Definition normalize_spec (s : list Z) : list Z :=
  map toLower (filter inBounds s).

(** What the scan keeps of [rest], cursor at [i], with the library [L]:
    a letter is kept, folded to lowercase; another character is dropped,
    and the scan goes on with what the library left of the tail.  [n]
    bounds the number of turns. *)
Fixpoint normalize_under (L : libc) (n : nat) (i : Z) (rest : list Z)
  : list Z :=
  match n with
  | O => []
  | S n' =>
      match rest with
      | [] => []
      | c :: rest' =>
          if inBounds c
          then toLower c :: normalize_under L n' (i + 1) rest'
          else normalize_under L n' i (strcpy_overlap L i rest')
      end
  end.

(** ** Lists seen through [load], [store] and [strcpy_left] *)

Lemma nth_middle_Z (done rest : list Z) (c : Z) :
  nth (List.length done) (done ++ c :: rest) 0 = c.
Proof. induction done as [| d done IH]; simpl; auto. Qed.

Lemma set_nth_middle (done rest : list Z) (c v : Z) :
  set_nth (List.length done) v (done ++ c :: rest) = done ++ v :: rest.
Proof. induction done as [| d done IH]; simpl; [| rewrite IH]; reflexivity. Qed.

Lemma firstn_middle (done rest : list Z) :
  firstn (List.length done) (done ++ rest) = done.
Proof. induction done as [| d done IH]; simpl; [now destruct rest | now rewrite IH]. Qed.

Lemma skipn_middle (done rest : list Z) (c : Z) :
  skipn (S (List.length done)) (done ++ c :: rest) = rest.
Proof. induction done as [| d done IH]; simpl in *; auto. Qed.

Lemma in_range_true (i n : Z) : 0 <= i < n -> (0 <=? i) && (i <? n) = true.
Proof. lia. Qed.

Lemma in_range_false (i n : Z) : ~ 0 <= i < n -> (0 <=? i) && (i <? n) = false.
Proof. lia. Qed.

Lemma load_middle (done rest : list Z) (c : Z) (out : Z -> Z) :
  load {| str := done ++ c :: rest; outside := out |}
       (Z.of_nat (List.length done)) = c.
Proof.
  unfold load, strlen; simpl.
  rewrite length_app; simpl.
  rewrite in_range_true by lia.
  rewrite Nat2Z.id. apply nth_middle_Z.
Qed.

Lemma store_middle (done rest : list Z) (c v : Z) (out : Z -> Z) :
  store {| str := done ++ c :: rest; outside := out |}
        (Z.of_nat (List.length done)) v
  = {| str := done ++ v :: rest; outside := out |}.
Proof.
  unfold store, strlen; simpl.
  rewrite length_app; simpl.
  rewrite in_range_true by lia.
  rewrite Nat2Z.id, set_nth_middle. reflexivity.
Qed.

Lemma strcpy_left_middle (L : libc) (done rest : list Z) (c : Z)
    (out : Z -> Z) :
  strcpy_left L {| str := done ++ c :: rest; outside := out |}
              (Z.of_nat (List.length done))
  = {| str := done ++ strcpy_overlap L (Z.of_nat (List.length done)) rest;
       outside := out |}.
Proof.
  unfold strcpy_left; cbn [str outside].
  rewrite Nat2Z.id, firstn_middle, skipn_middle. reflexivity.
Qed.

(** The character before position [length done] is the last one of
    [done]; with [done] empty, it is the byte in front of the buffer. *)
Lemma load_before (done rest : list Z) (out : Z -> Z) :
  load {| str := done ++ rest; outside := out |}
       (Z.of_nat (List.length done) - 1)
  = match rev done with
    | [] => out (-1)
    | d :: _ => d
    end.
Proof.
  destruct (rev done) as [| d r] eqn:E.
  - apply (f_equal (@rev Z)) in E. rewrite rev_involutive in E. subst done.
    unfold load, strlen. cbn [rev app List.length str outside Z.of_nat Z.sub].
    change (0 - 1) with (-1).
    rewrite in_range_false by lia.
    destruct (-1 =? Z.of_nat (List.length rest)) eqn:T;
      [apply Z.eqb_eq in T; lia | reflexivity].
  - apply (f_equal (@rev Z)) in E. rewrite rev_involutive in E. subst done.
    simpl. rewrite <- app_assoc. simpl.
    rewrite length_app; simpl.
    replace (Z.of_nat (List.length (rev r) + 1) - 1)
      with (Z.of_nat (List.length (rev r))) by lia.
    apply load_middle.
Qed.

Lemma toLower_not_upper (c : Z) : isUppercase (toLower c) = false.
Proof.
  unfold toLower. destruct (isUppercase c) eqn:U.
  - apply isUppercase_spec in U. apply not_true_iff_false.
    rewrite isUppercase_spec. unfold range_distance. lia.
  - exact U.
Qed.

Lemma toLower_to_char (sg : bool) (c : Z) :
  isUppercase c = true -> to_char sg (c + range_distance) = toLower c.
Proof.
  intros U. unfold toLower. rewrite U.
  apply isUppercase_spec in U.
  apply to_char_ascii. unfold range_distance. lia.
Qed.

(** ** The body of the loop of [correctKey] *)

Definition no_upper (l : list Z) : Prop :=
  Forall (fun c => isUppercase c = false) l.

Lemma no_upper_last (done : list Z) :
  no_upper done ->
  match rev done with [] => True | d :: _ => isUppercase d = false end.
Proof.
  intros H. destruct (rev done) as [| d r] eqn:E; [exact I |].
  unfold no_upper in H. rewrite Forall_forall in H. apply H.
  apply in_rev. rewrite E. now left.
Qed.

(** A letter stays where it is, folded to lowercase. *)
Lemma correctKey_body_keep (L : libc) (sg : bool) (done rest : list Z)
    (c len : Z) (out : Z -> Z) :
  inBounds c = true ->
  exists log,
    correctKey_body L sg (Z.of_nat (List.length done)) len
      {| str := done ++ c :: rest; outside := out |}
    = (Z.of_nat (List.length done), len,
       {| str := done ++ toLower c :: rest; outside := out |}, log)
    /\ forallb in_buffer log = true.
Proof.
  intros Lc. unfold correctKey_body.
  rewrite load_middle, Lc. simpl negb. cbv iota.
  rewrite load_middle.
  assert (B : in_buffer (acc {| str := done ++ c :: rest; outside := out |}
                             (Z.of_nat (List.length done))) = true).
  { unfold in_buffer, acc, strlen; simpl. rewrite length_app; simpl.
    apply andb_true_iff; split; apply Z.leb_le; lia. }
  destruct (isUppercase c) eqn:U.
  - eexists. split.
    + rewrite store_middle, (toLower_to_char sg c U). reflexivity.
    + simpl. now rewrite B.
  - eexists. split.
    + unfold toLower. rewrite U. reflexivity.
    + simpl. now rewrite B.
Qed.

(** Another character is dropped; the string on the left of the cursor
    is untouched, whatever the byte in front of the buffer holds, and the
    library leaves the tail.  The check for an uppercase letter that
    follows uses index [i - 1]: inside the buffer when something was kept
    before, index [-1] otherwise. *)
Lemma correctKey_body_drop (L : libc) (sg : bool) (done rest : list Z)
    (c len : Z) (out : Z -> Z) :
  inBounds c = false -> no_upper done ->
  exists out' log,
    correctKey_body L sg (Z.of_nat (List.length done)) len
      {| str := done ++ c :: rest; outside := out |}
    = (Z.of_nat (List.length done) - 1, len - 1,
       {| str := done ++ strcpy_overlap L (Z.of_nat (List.length done)) rest;
          outside := out' |}, log)
    /\ (done <> [] -> forallb in_buffer log = true)
    /\ (done = [] -> In (-1, Z.of_nat (List.length rest)) log).
Proof.
  intros Lc N. unfold correctKey_body.
  rewrite load_middle, Lc. simpl negb. cbv iota.
  rewrite strcpy_left_middle, load_before.
  pose proof (no_upper_last done N) as Hlast.
  pose proof (strcpy_overlap_length L (Z.of_nat (List.length done)) rest)
    as Hlen.
  destruct (rev done) as [| d r] eqn:E.
  - apply (f_equal (@rev Z)) in E. rewrite rev_involutive in E. subst done.
    cbn [rev List.length Z.of_nat Z.sub app] in *.
    destruct (isUppercase (out (-1))); do 2 eexists;
      (split; [reflexivity | split; [congruence | intros _]]);
      unfold acc, strlen; cbn [str]; rewrite Hlen; simpl In; auto.
  - rewrite Hlast. do 2 eexists. split; [reflexivity | split].
    + intros _. apply (f_equal (@rev Z)) in E. rewrite rev_involutive in E.
      subst done. unfold acc, strlen, in_buffer; cbn [str forallb app fst snd].
      rewrite !length_app. cbn [rev List.length].
      rewrite !length_app. cbn [List.length].
      repeat (apply andb_true_iff; split); try reflexivity; apply Z.leb_le; lia.
    + intros ->. discriminate.
Qed.

(** ** The loop of [correctKey] *)

Lemma correctKey_loop_eq (L : libc) (sg : bool) (fuel : nat) (i len : Z)
    (m : mem) :
  correctKey_loop L sg fuel i len m
  = if i <? len then
      match fuel with
      | O => None
      | S fuel' =>
          let '(i1, length1, m1, log) := correctKey_body L sg i len m in
          match correctKey_loop L sg fuel' (i1 + 1) length1 m1 with
          | Some (m', log') => Some (m', log ++ log')
          | None => None
          end
      end
    else Some (m, []).
Proof. destruct fuel; reflexivity. Qed.

(** Loop invariant: [done] is what has been kept so far (no uppercase
    letter in it), [rest] is what remains to scan, the cursor stands
    between them, and [length] is the length of the whole string.  With
    at least [length rest] units of fuel the loop ends, with what the
    scan keeps of [rest] appended to [done]. *)
Lemma correctKey_loop_spec (L : libc) (sg : bool) (n : nat) :
  forall (rest done : list Z) (out : Z -> Z) (fuel : nat),
    List.length rest = n ->
    no_upper done ->
    (n <= fuel)%nat ->
    exists m' log,
      correctKey_loop L sg fuel (Z.of_nat (List.length done))
        (Z.of_nat (List.length done + n))
        {| str := done ++ rest; outside := out |}
      = Some (m', log)
      /\ str m'
         = done ++ normalize_under L n (Z.of_nat (List.length done)) rest
      /\ (done <> [] -> forallb in_buffer log = true).
Proof.
  induction n as [| n IH]; intros rest done out fuel Hn N F;
    rewrite correctKey_loop_eq.
  - rewrite Nat.add_0_r, Z.ltb_irrefl.
    destruct rest; [| discriminate].
    do 2 eexists. repeat split; reflexivity.
  - destruct rest as [| c rest]; [discriminate |].
    injection Hn as Hn.
    destruct fuel as [| fuel]; [lia |]. apply le_S_n in F.
    replace (Z.of_nat (List.length done)
             <? Z.of_nat (List.length done + S n))
      with true by (symmetry; apply Z.ltb_lt; lia).
    cbn [normalize_under].
    destruct (inBounds c) eqn:Lc.
    + destruct (correctKey_body_keep L sg done rest c
                  (Z.of_nat (List.length done + S n)) out Lc)
        as (log & -> & Slog).
      assert (N' : no_upper (done ++ [toLower c])).
      { apply Forall_app. split; [exact N |].
        constructor; [apply toLower_not_upper | constructor]. }
      destruct (IH rest (done ++ [toLower c]) out fuel Hn N' F)
        as (m' & log' & E & Hstr & Slog').
      rewrite length_app in E, Hstr. simpl List.length in E, Hstr.
      replace (Z.of_nat (List.length done + 1))
        with (Z.of_nat (List.length done) + 1) in E, Hstr by lia.
      replace (Z.of_nat (List.length done + 1 + n))
        with (Z.of_nat (List.length done + S n)) in E by lia.
      rewrite <- app_assoc in E. simpl app in E.
      rewrite E. exists m', (log ++ log'). split; [reflexivity | split].
      * rewrite Hstr, <- app_assoc. reflexivity.
      * intros _. rewrite forallb_app, Slog. simpl.
        apply Slog'. now destruct done.
    + destruct (correctKey_body_drop L sg done rest c
                  (Z.of_nat (List.length done + S n)) out Lc N)
        as (out' & log & -> & Slog & _).
      destruct (IH (strcpy_overlap L (Z.of_nat (List.length done)) rest)
                  done out' fuel
                  ltac:(now rewrite strcpy_overlap_length) N F)
        as (m' & log' & E & Hstr & Slog').
      replace (Z.of_nat (List.length done) - 1 + 1)
        with (Z.of_nat (List.length done)) by lia.
      replace (Z.of_nat (List.length done + S n) - 1)
        with (Z.of_nat (List.length done + n)) by lia.
      rewrite E. exists m', (log ++ log'). split; [reflexivity | split].
      * exact Hstr.
      * intros D. rewrite forallb_app, (Slog D), (Slog' D). reflexivity.
Qed.

Lemma cstring_length (s : list Z) :
  cstring s = true -> int_of_size_t (Z.of_nat (List.length s)) = Z.of_nat (List.length s).
Proof.
  unfold cstring, INT_MAX. intros H. apply andb_true_iff in H.
  destruct H as [_ H]. apply Z.leb_le in H.
  unfold int_of_size_t. rewrite Z.mod_small; lia.
Qed.

(** The run of [correctKey] on a string, in one statement: the loop ends
    within its fuel and leaves what the scan keeps. *)
Lemma correctKey_run (L : libc) (sg : bool) (around : Z -> Z) (s : list Z) :
  cstring s = true ->
  exists m' log,
    correctKey L sg around (Some s)
    = {| key_ret := Ptr (normalize_under L (List.length s) 0 s);
         key_accesses := log ++ [acc m' (strlen m')];
         key_printed := [] |}
    /\ correctKey_loop L sg (List.length s) 0 (Z.of_nat (List.length s))
         {| str := s; outside := around |} = Some (m', log).
Proof.
  intros W. unfold correctKey. cbv zeta.
  change (strlen {| str := s; outside := around |})
    with (Z.of_nat (List.length s)).
  rewrite (cstring_length s W), Nat2Z.id.
  destruct (correctKey_loop_spec L sg (List.length s) s [] around
              (List.length s) eq_refl (Forall_nil _) (le_n _))
    as (m' & log & E & Hstr & _).
  simpl in E, Hstr. rewrite E. exists m', log. split; [| reflexivity].
  rewrite Hstr. reflexivity.
Qed.

(** ** What the scan keeps *)

Lemma toLower_letter_lower (c : Z) :
  inBounds c = true -> 97 <= toLower c <= 122.
Proof.
  intros Lc. unfold toLower. destruct (isUppercase c) eqn:U.
  - apply isUppercase_spec in U. unfold range_distance. lia.
  - apply inBounds_spec in Lc. destruct Lc as [Lc | Lc]; [exact Lc |].
    apply isUppercase_spec in Lc. congruence.
Qed.

(** Every character kept is the lowercase form of a letter of the
    string. *)
Lemma normalize_under_chars (L : libc) (n : nat) :
  forall (i : Z) (rest : list Z) (x : Z),
    In x (normalize_under L n i rest) ->
    exists c, In c rest /\ inBounds c = true /\ x = toLower c.
Proof.
  induction n as [| n IH]; intros i rest x Hx; [contradiction |].
  destruct rest as [| c rest]; [contradiction |]. cbn [normalize_under] in Hx.
  destruct (inBounds c) eqn:Lc.
  - destruct Hx as [<- | Hx].
    + exists c. repeat split; [now left | exact Lc].
    + destruct (IH _ _ _ Hx) as (c' & Hc' & Lc' & ->).
      exists c'. repeat split; [now right | exact Lc'].
  - destruct (IH _ _ _ Hx) as (c' & Hc' & Lc' & ->).
    exists c'. repeat split; [| exact Lc'].
    right. eapply strcpy_overlap_chars, Hc'.
Qed.

Lemma normalize_under_length (L : libc) (n : nat) :
  forall (i : Z) (rest : list Z),
    (List.length (normalize_under L n i rest) <= List.length rest)%nat.
Proof.
  induction n as [| n IH]; intros i rest; [simpl; lia |].
  destruct rest as [| c rest]; [simpl; lia |]. cbn [normalize_under].
  destruct (inBounds c).
  - specialize (IH (i + 1) rest). simpl. lia.
  - specialize (IH i (strcpy_overlap L i rest)).
    rewrite strcpy_overlap_length in IH. simpl. lia.
Qed.

(** With a library that moves the tail intact, the scan keeps exactly the
    letters. *)
Lemma normalize_under_forward (L : libc) (n : nat) :
  (forall i t, strcpy_overlap L i t = t) ->
  forall (i : Z) (rest : list Z),
    (List.length rest <= n)%nat ->
    normalize_under L n i rest = normalize_spec rest.
Proof.
  intros Hf. induction n as [| n IH]; intros i rest Hn.
  - destruct rest; [reflexivity | simpl in Hn; lia].
  - destruct rest as [| c rest]; [reflexivity |].
    cbn [normalize_under]. unfold normalize_spec. cbn [filter].
    simpl in Hn.
    destruct (inBounds c); cbn [map]; [f_equal |];
      rewrite ?Hf; apply IH; lia.
Qed.

(** A string of letters is kept whole, whatever the library: nothing is
    dropped, so nothing is copied. *)
Lemma normalize_under_letters (L : libc) (n : nat) :
  forall (i : Z) (rest : list Z),
    forallb inBounds rest = true ->
    (List.length rest <= n)%nat ->
    normalize_under L n i rest = map toLower rest.
Proof.
  induction n as [| n IH]; intros i rest A Hn.
  - destruct rest; [reflexivity | simpl in Hn; lia].
  - destruct rest as [| c rest]; [reflexivity |].
    cbn [forallb] in A. apply andb_true_iff in A. destruct A as [Lc A].
    cbn [normalize_under map]. rewrite Lc. f_equal.
    apply IH; [exact A | simpl in Hn; lia].
Qed.

(** A string without a letter is dropped whole, whatever the library. *)
Lemma normalize_under_no_letter (L : libc) (n : nat) :
  forall (i : Z) (rest : list Z),
    (forall c, In c rest -> inBounds c = false) ->
    normalize_under L n i rest = [].
Proof.
  intros i rest H.
  destruct (normalize_under L n i rest) as [| x k] eqn:E; [reflexivity |].
  destruct (normalize_under_chars L n i rest x) as (c & Hc & Lc & _).
  - rewrite E. now left.
  - rewrite (H c Hc) in Lc. discriminate.
Qed.

(** A leading letter is kept in front, whatever the library. *)
Lemma normalize_under_head (L : libc) (n : nat) (i c : Z) (rest : list Z) :
  inBounds c = true ->
  normalize_under L (S n) i (c :: rest)
  = toLower c :: normalize_under L n (i + 1) rest.
Proof. intros Lc. cbn [normalize_under]. now rewrite Lc. Qed.

(** C4 fails on the code.  The characters are dropped by a [strcpy]
    whose operands overlap, which C leaves undefined: what comes back
    depends on the library.  With a library that copies short strings in
    two windows, [correctKey] turns "1aaaB" into "aabb" -- an a lost, the
    b doubled -- where the claim asks for "aaab", which is what a
    library that copies byte by byte gives; the same library makes
    "psswdd" of "P@ss-w0rd!". *)
Theorem correctKey_overlapping_copy_garbles (char_signed : bool)
    (around : Z -> Z) :
  key_ret (correctKey two_window_libc char_signed around
             (Some (chars "1aaaB")))
  = Ptr (chars "aabb")
  /\ key_ret (correctKey forward_libc char_signed around
                (Some (chars "1aaaB")))
     = Ptr (chars "aaab")
  /\ map (fun c => if isUppercase c then c + 32 else c)
         (filter inBounds (chars "1aaaB")) = chars "aaab"
  /\ key_ret (correctKey two_window_libc char_signed around
                (Some (chars "P@ss-w0rd!")))
     = Ptr (chars "psswdd").
Proof.
  split; [| split; [| split; [reflexivity |]]].
  - destruct (correctKey_run two_window_libc char_signed around
                (chars "1aaaB") eq_refl) as (m' & log & -> & _).
    reflexivity.
  - destruct (correctKey_run forward_libc char_signed around
                (chars "1aaaB") eq_refl) as (m' & log & -> & _).
    reflexivity.
  - destruct (correctKey_run two_window_libc char_signed around
                (chars "P@ss-w0rd!") eq_refl) as (m' & log & -> & _).
    reflexivity.
Qed.

(** Where the library moves the tail intact, [correctKey] does what C4
    says: it returns the letters of the string, in their order, folded to
    lowercase. *)
Lemma correctKey_forward_copy (L : libc) (sg : bool) (around : Z -> Z)
    (rawKey : list Z) :
  (forall i t, strcpy_overlap L i t = t) ->
  cstring rawKey = true ->
  key_ret (correctKey L sg around (Some rawKey)) = Ptr (normalize_spec rawKey).
Proof.
  intros Hf W.
  destruct (correctKey_run L sg around rawKey W) as (m' & log & -> & _).
  cbn [key_ret]. f_equal. apply normalize_under_forward; [exact Hf | lia].
Qed.

(** ** vigenere *)

(** What one turn of the loop did with the key cursor: the position in
    the text, the cursor after the wrap test (the index used on the key),
    whether [key[keyi]] was read, and the cursor after [keyi++]. *)
Record step : Type :=
  { pos : Z; cursor : Z; key_read : bool; next_cursor : Z }.

Record text_run : Type :=
  { text_ret : pointer;
    text_steps : list step;
    text_printed : list diagnostic }.

Section Vigenere.
Variable char_signed : bool.

(** [beyond i j]: the byte found at index [j] of the key buffer, past
    its terminator, when position [i] of the text is processed. *)
Variable beyond : Z -> Z -> Z.

(** One turn of the [for] loop at position [i]; the state is the
    cursor [keyi], the text (changed in place) and the steps so far.
    [i] is below the length of the text, so [plainText[i]] is an
    element of the list.  The text and the key are two buffers, as in
    [main]: a store into the text does not change the key. *)
Definition vigenere_body (key : list Z) (keylen : Z)
    (st : Z * list Z * list step) (i : Z) : Z * list Z * list step :=
  let '(keyi, plainText, steps) := st in
  let keyi := if keyi =? keylen then 0 else keyi in
  let c := nth (Z.to_nat i) plainText 0 in
  let plainText :=
    if inBounds c
    then set_nth (Z.to_nat i)
           (calculateRotShift char_signed c
              (load {| str := key; outside := beyond i |} keyi))
           plainText
    else plainText in
  (keyi + 1, plainText,
   steps ++ [{| pos := i; cursor := keyi; key_read := inBounds c;
                next_cursor := keyi + 1 |}]).

(** [for (int i = 0; i < length; i++)]: the body changes neither [i]
    nor [length]. *)
Definition vigenere_loop (key : list Z) (keylen length : Z)
    (plainText : list Z) : Z * list Z * list step :=
  fold_left (vigenere_body key keylen)
    (map Z.of_nat (seq 0 (Z.to_nat length))) (0, plainText, []).

Definition vigenere (plainText key : option (list Z)) : text_run :=
  match plainText, key with
  | Some p, Some k =>
      let keylen := int_of_size_t (Z.of_nat (List.length k)) in
      let length := int_of_size_t (Z.of_nat (List.length p)) in
      let '(_, p', steps) := vigenere_loop k keylen length p in
      {| text_ret := Ptr p'; text_steps := steps; text_printed := [] |}
  | _, _ =>
      {| text_ret := Null; text_steps := [];
         text_printed :=
           (match plainText with
            | None => [VigenerePlainTextNull] | Some _ => [] end)
           ++ (match key with
               | None => [VigenereKeyNull] | Some _ => [] end) |}
  end.
End Vigenere.

(** The indexes used on the key buffer during a run, each with the
    length of the key. *)
Definition key_reads (key : list Z) (steps : list step) : list access :=
  map (fun s => (cursor s, Z.of_nat (List.length key)))
      (filter key_read steps).

(** A canonical key: lowercase Latin letters only. *)
Definition canonical (key : list Z) : bool := forallb isLowercase key.

(** ** Stores into a list *)

Lemma set_nth_length (n : nat) (v : Z) (l : list Z) :
  List.length (set_nth n v l) = List.length l.
Proof.
  revert n. induction l as [| x l IH]; intros [| n]; simpl; auto.
Qed.

Lemma nth_set_nth_same (n : nat) (v : Z) (l : list Z) :
  (n < List.length l)%nat -> nth n (set_nth n v l) 0 = v.
Proof.
  revert n. induction l as [| x l IH]; intros [| n] H; simpl in *;
    try lia; auto. apply IH. lia.
Qed.

Lemma nth_set_nth_other (n j : nat) (v : Z) (l : list Z) :
  j <> n -> nth j (set_nth n v l) 0 = nth j l 0.
Proof.
  revert n j. induction l as [| x l IH]; intros [| n] [| j] H; simpl;
    try congruence; auto.
Qed.

Lemma load_inside (key : list Z) (out : Z -> Z) (i : Z) :
  0 <= i < Z.of_nat (List.length key) ->
  load {| str := key; outside := out |} i = nth (Z.to_nat i) key 0.
Proof.
  intros H. unfold load, strlen. cbn [str].
  now rewrite in_range_true.
Qed.

(** ** The pass of [vigenere], position by position *)

Section VigenereLoop.
Variable char_signed : bool.
Variable beyond : Z -> Z -> Z.
Variable key : list Z.
Variable plainText : list Z.

Let keylen : Z := Z.of_nat (List.length key).

Hypothesis key_nonempty : key <> [].

(** The character the pass leaves at position [j]. *)
Definition cipher_at (j : nat) : Z :=
  let c := nth j plainText 0 in
  if inBounds c
  then calculateRotShift char_signed c
         (nth (Z.to_nat (Z.of_nat j mod Z.of_nat (List.length key))) key 0)
  else c.

(** The step the pass makes at position [j]. *)
Definition step_at (j : nat) : step :=
  {| pos := Z.of_nat j;
     cursor := Z.of_nat j mod Z.of_nat (List.length key);
     key_read := inBounds (nth j plainText 0);
     next_cursor := Z.of_nat j mod Z.of_nat (List.length key) + 1 |}.

Lemma keylen_pos : 0 < keylen.
Proof.
  unfold keylen. destruct key; [contradiction | simpl; lia].
Qed.

(** After [n] turns: the cursor is [n] modulo the length of the key (it
    is allowed to stand on the length itself until the next wrap test),
    the first [n] characters are enciphered, the others untouched, and
    one step was recorded per position. *)
Lemma vigenere_prefix (n : nat) :
  (n <= List.length plainText)%nat ->
  exists keyi text,
    fold_left (vigenere_body char_signed beyond key keylen)
      (map Z.of_nat (seq 0 n)) (0, plainText, [])
    = (keyi, text, map step_at (seq 0 n))
    /\ 0 <= keyi <= keylen
    /\ (if keyi =? keylen then 0 else keyi) = Z.of_nat n mod keylen
    /\ List.length text = List.length plainText
    /\ forall j, nth j text 0
                 = if (j <? n)%nat then cipher_at j else nth j plainText 0.
Proof.
  pose proof keylen_pos as KP.
  induction n as [| n IH]; intros Hn.
  - exists 0, plainText. cbn [seq map fold_left Z.of_nat].
    repeat split; try lia.
    destruct (0 =? keylen) eqn:E; [apply Z.eqb_eq in E; lia |].
    now rewrite Z.mod_0_l by lia.
  - destruct IH as (keyi & text & E & Hk & Hmod & Hlen & Hnth); [lia |].
    rewrite seq_S, map_app, fold_left_app, E.
    cbn [map fold_left Nat.add]. unfold vigenere_body.
    rewrite Hmod. rewrite Nat2Z.id, (Hnth n), Nat.ltb_irrefl.
    pose proof (Z.mod_pos_bound (Z.of_nat n) keylen KP) as B.
    rewrite load_inside by exact B.
    eexists. eexists. split; [| split; [| split; [| split]]].
    + rewrite map_app. reflexivity.
    + lia.
    + destruct (Z.of_nat n mod keylen + 1 =? keylen) eqn:T.
      * apply Z.eqb_eq in T. symmetry.
        replace (Z.of_nat (S n)) with (Z.of_nat n + 1) by lia.
        rewrite <- Zplus_mod_idemp_l, T, Z.mod_same by lia. reflexivity.
      * apply Z.eqb_neq in T. symmetry.
        replace (Z.of_nat (S n)) with (Z.of_nat n + 1) by lia.
        rewrite <- Zplus_mod_idemp_l. apply Z.mod_small. lia.
    + destruct (inBounds (nth n plainText 0));
        [rewrite set_nth_length |]; exact Hlen.
    + intros j. unfold cipher_at.
      destruct (Nat.eq_dec j n) as [-> | Hj].
      * replace (n <? S n)%nat with true by (symmetry; apply Nat.ltb_lt; lia).
        cbv zeta. destruct (inBounds (nth n plainText 0)) eqn:L.
        -- rewrite nth_set_nth_same by lia. reflexivity.
        -- rewrite Hnth, Nat.ltb_irrefl. reflexivity.
      * assert (Hj' : (j <? S n)%nat = (j <? n)%nat).
        { destruct (j <? n)%nat eqn:T.
          - apply Nat.ltb_lt in T. apply Nat.ltb_lt. lia.
          - apply Nat.ltb_ge in T. apply Nat.ltb_ge. lia. }
        rewrite Hj'.
        destruct (inBounds (nth n plainText 0));
          [rewrite nth_set_nth_other by exact Hj |]; apply Hnth.
Qed.
End VigenereLoop.

(** What the specification calls the ciphertext, position by position. *)
Definition encipher_spec (char_signed : bool) (key plainText : list Z) : list Z :=
  map (cipher_at char_signed key plainText) (seq 0 (List.length plainText)).

(** The run of [vigenere] with a key that is not empty. *)
Lemma vigenere_run (sg : bool) (beyond : Z -> Z -> Z) (p k : list Z) :
  cstring p = true -> cstring k = true -> k <> [] ->
  vigenere sg beyond (Some p) (Some k)
  = {| text_ret := Ptr (encipher_spec sg k p);
       text_steps := map (step_at k p) (seq 0 (List.length p));
       text_printed := [] |}.
Proof.
  intros Wp Wk Nk. unfold vigenere, vigenere_loop. cbv zeta.
  rewrite (cstring_length p Wp), (cstring_length k Wk), Nat2Z.id.
  destruct (vigenere_prefix sg beyond k p Nk (List.length p) (le_n _))
    as (keyi & text & E & _ & _ & Hlen & Hnth).
  rewrite E. f_equal. f_equal.
  apply (nth_ext _ _ 0 0).
  - unfold encipher_spec. now rewrite length_map, length_seq.
  - intros j Hj. rewrite Hlen in Hj. rewrite Hnth.
    replace (j <? List.length p)%nat with true
      by (symmetry; now apply Nat.ltb_lt).
    unfold encipher_spec.
    rewrite (nth_indep _ 0 (cipher_at sg k p 0))
      by now rewrite length_map, length_seq.
    rewrite map_nth, seq_nth by exact Hj. reflexivity.
Qed.

Lemma canonical_nth (k : list Z) (n : nat) :
  canonical k = true -> (n < List.length k)%nat ->
  97 <= nth n k 0 <= 122.
Proof.
  unfold canonical. intros C Hn. rewrite forallb_forall in C.
  apply isLowercase_spec, C, nth_In, Hn.
Qed.

(** The key character of position [j] is a letter of the key. *)
Lemma key_char_letter (k : list Z) (j : nat) :
  canonical k = true -> k <> [] ->
  inBounds (nth (Z.to_nat (Z.of_nat j mod Z.of_nat (List.length k))) k 0) = true.
Proof.
  intros C Nk. apply inBounds_spec. left. apply canonical_nth; [exact C |].
  assert (0 < Z.of_nat (List.length k)) by (destruct k; [contradiction | simpl; lia]).
  pose proof (Z.mod_pos_bound (Z.of_nat j) (Z.of_nat (List.length k))
                ltac:(lia)).
  lia.
Qed.

Lemma nth_encipher_spec (sg : bool) (k p : list Z) (j : nat) :
  (j < List.length p)%nat ->
  nth j (encipher_spec sg k p) 0 = cipher_at sg k p j.
Proof.
  intros Hj. unfold encipher_spec.
  rewrite (nth_indep _ 0 (cipher_at sg k p 0))
    by now rewrite length_map, length_seq.
  rewrite map_nth, seq_nth by exact Hj. reflexivity.
Qed.

Lemma length_encipher_spec (sg : bool) (k p : list Z) :
  List.length (encipher_spec sg k p) = List.length p.
Proof. unfold encipher_spec. now rewrite length_map, length_seq. Qed.

(** C1.  With a key that is not empty, the pass uses the key by position
    in the text: at position [j] the cursor is [j mod length key], it
    moves on by one whether the character is a letter or not, and a
    letter is rotated by the key character under the cursor. *)
Theorem vigenere_key_by_position (char_signed : bool) (beyond : Z -> Z -> Z)
    (p k : list Z)
    (Wp : cstring p = true) (Wk : cstring k = true)
    (Ck : canonical k = true) (Nk : k <> []) :
  let r := vigenere char_signed beyond (Some p) (Some k) in
  let keylen := Z.of_nat (List.length k) in
  text_steps r
  = map (fun j => {| pos := Z.of_nat j;
                     cursor := Z.of_nat j mod keylen;
                     key_read := inBounds (nth j p 0);
                     next_cursor := Z.of_nat j mod keylen + 1 |})
        (seq 0 (List.length p))
  /\ exists out,
       text_ret r = Ptr out
       /\ List.length out = List.length p
       /\ forall j, (j < List.length p)%nat ->
            nth j out 0
            = if inBounds (nth j p 0)
              then calculateRotShift char_signed (nth j p 0)
                     (nth (Z.to_nat (Z.of_nat j mod keylen)) k 0)
              else nth j p 0.
Proof.
  intros r keylen. subst r keylen.
  rewrite (vigenere_run char_signed beyond p k Wp Wk Nk). cbn [text_steps text_ret].
  split; [reflexivity |].
  exists (encipher_spec char_signed k p).
  split; [reflexivity | split; [apply length_encipher_spec |]].
  intros j Hj. now rewrite nth_encipher_spec.
Qed.

Lemma vigenere_key_by_position_witness :
  text_steps (vigenere true (fun _ _ => 0) (Some (chars "a b!c")) (Some (chars "xy")))
  = [ {| pos := 0; cursor := 0; key_read := true; next_cursor := 1 |};
      {| pos := 1; cursor := 1; key_read := false; next_cursor := 2 |};
      {| pos := 2; cursor := 0; key_read := true; next_cursor := 1 |};
      {| pos := 3; cursor := 1; key_read := false; next_cursor := 2 |};
      {| pos := 4; cursor := 0; key_read := true; next_cursor := 1 |} ].
Proof.
  assert (Nk : chars "xy" <> []) by discriminate.
  destruct (vigenere_key_by_position true (fun _ _ => 0)
              (chars "a b!c") (chars "xy") eq_refl eq_refl eq_refl Nk)
    as [E _].
  rewrite E. reflexivity.
Defined.

(** ** The scenarios of the specification *)

Definition same_case (c d : Z) : bool :=
  Bool.eqb (isUppercase c) (isUppercase d)
  && Bool.eqb (isLowercase c) (isLowercase d).

Fixpoint all2 (f : Z -> Z -> bool) (l1 l2 : list Z) : bool :=
  match l1, l2 with
  | [], [] => true
  | x :: l1', y :: l2' => f x y && all2 f l1' l2'
  | _, _ => false
  end.

(** C2, as stated, fails: the text has 14 characters and the cursor moves
    on the two spaces as well, so the code cannot return the 15
    characters "Lxfopv ef rgnkw". *)
Lemma vigenere_attack_at_dawn_not_classic :
  text_ret (vigenere true (fun _ _ => 0)
              (Some (chars "Attack at dawn")) (Some (chars "lemon")))
  <> Ptr (chars "Lxfopv ef rgnkw").
Proof. vm_compute. discriminate. Qed.

(** C2, amended.  [vigenere] turns "Attack at dawn" under the key "lemon"
    into "Lxfopv mh oeib"; every character keeps its case. *)
Theorem vigenere_attack_at_dawn (char_signed : bool) (beyond : Z -> Z -> Z) :
  text_ret (vigenere char_signed beyond
              (Some (chars "Attack at dawn")) (Some (chars "lemon")))
  = Ptr (chars "Lxfopv mh oeib")
  /\ all2 same_case (chars "Attack at dawn") (chars "Lxfopv mh oeib") = true.
Proof.
  split; [| reflexivity].
  rewrite vigenere_run by (reflexivity || discriminate).
  destruct char_signed; reflexivity.
Qed.

Lemma normalize_under_canonical (L : libc) (n : nat) (i : Z) (rest : list Z) :
  canonical (normalize_under L n i rest) = true.
Proof.
  unfold canonical. apply forallb_forall. intros x Hx.
  destruct (normalize_under_chars L n i rest x Hx) as (c & _ & Lc & ->).
  apply isLowercase_spec, toLower_letter_lower, Lc.
Qed.

(** C5, as stated, fails: the digit [0] of "w0rd" is not a letter and is
    dropped with the other signs, under the library that moves the tail
    intact as under the one that copies in two windows. *)
Lemma correctKey_password_not_pssword :
  key_ret (correctKey forward_libc true (fun _ => 0)
             (Some (chars "P@ss-w0rd!")))
  <> Ptr (chars "pssword")
  /\ key_ret (correctKey two_window_libc true (fun _ => 0)
                (Some (chars "P@ss-w0rd!")))
     <> Ptr (chars "pssword").
Proof. split; vm_compute; discriminate. Qed.

(** C5, amended.  Of "P@ss-w0rd!" [correctKey] keeps letters only, all
    lowercase and all among p, s, w, r and d, with p in front: the digit
    [0] goes with the other signs, and no o comes back.  When the library
    moves the overlapping tail intact, the result is "psswrd". *)
Theorem correctKey_password (L : libc) (char_signed : bool)
    (around : Z -> Z) :
  exists key,
    key_ret (correctKey L char_signed around (Some (chars "P@ss-w0rd!")))
    = Ptr key
    /\ canonical key = true
    /\ nth 0 key 0 = 112
    /\ (forall x, In x key -> In x (chars "pswrd"))
    /\ key <> chars "pssword"
    /\ ((forall i t, strcpy_overlap L i t = t) -> key = chars "psswrd").
Proof.
  destruct (correctKey_run L char_signed around (chars "P@ss-w0rd!") eq_refl)
    as (m' & log & -> & _).
  eexists. split; [reflexivity |].
  assert (Hin : forall x,
             In x (normalize_under L (List.length (chars "P@ss-w0rd!")) 0
                     (chars "P@ss-w0rd!")) ->
             In x (chars "pswrd")).
  { intros x Hx.
    destruct (normalize_under_chars L _ _ _ x Hx) as (c & Hc & Lc & ->).
    simpl in Hc.
    repeat (destruct Hc as [<- | Hc]; [try discriminate Lc; simpl; tauto |]).
    contradiction. }
  split; [apply normalize_under_canonical |].
  split; [reflexivity |].
  split; [exact Hin |]. split.
  - intros E. specialize (Hin 111). rewrite E in Hin.
    assert (F : In 111 (chars "pswrd")) by (apply Hin; simpl; tauto).
    simpl in F. repeat (destruct F as [F | F]; [discriminate |]).
    contradiction.
  - intros Hf. now rewrite normalize_under_forward by (exact Hf || simpl; lia).
Qed.

Lemma correctKey_password_witness :
  key_ret (correctKey forward_libc true (fun _ => 0)
             (Some (chars "P@ss-w0rd!")))
  = Ptr (chars "psswrd").
Proof.
  destruct (correctKey_password forward_libc true (fun _ => 0))
    as (key & -> & _ & _ & _ & _ & F).
  now rewrite (F (fun _ _ => eq_refl)).
Defined.

(** C3.  With a canonical key that is not empty, the text that comes back
    has the length of the text that went in; where that one has a Latin
    letter this one has a Latin letter of the same case, and every other
    character is the same in both. *)
Theorem vigenere_keeps_shape (char_signed : bool) (beyond : Z -> Z -> Z)
    (p k : list Z)
    (Wp : cstring p = true) (Wk : cstring k = true)
    (Ck : canonical k = true) (Nk : k <> []) :
  exists out,
    text_ret (vigenere char_signed beyond (Some p) (Some k)) = Ptr out
    /\ List.length out = List.length p
    /\ forall j, (j < List.length p)%nat ->
         if inBounds (nth j p 0)
         then inBounds (nth j out 0) = true
              /\ isUppercase (nth j out 0) = isUppercase (nth j p 0)
              /\ isLowercase (nth j out 0) = isLowercase (nth j p 0)
         else nth j out 0 = nth j p 0.
Proof.
  rewrite (vigenere_run char_signed beyond p k Wp Wk Nk). cbn [text_ret].
  exists (encipher_spec char_signed k p).
  split; [reflexivity | split; [apply length_encipher_spec |]].
  intros j Hj. rewrite nth_encipher_spec by exact Hj. unfold cipher_at.
  destruct (inBounds (nth j p 0)) eqn:L; [| reflexivity].
  destruct (rot_same_case char_signed (nth j p 0) _ L (key_char_letter k j Ck Nk))
    as (B & U & Lo & _).
  auto.
Qed.

Lemma vigenere_keeps_shape_witness :
  exists out,
    text_ret (vigenere true (fun _ _ => 0)
                (Some (chars "Hello, World!")) (Some (chars "key"))) = Ptr out
    /\ List.length out = 13%nat
    /\ nth 5 out 0 = 44 /\ isUppercase (nth 7 out 0) = true.
Proof.
  assert (Nk : chars "key" <> []) by discriminate.
  destruct (vigenere_keeps_shape true (fun _ _ => 0)
              (chars "Hello, World!") (chars "key") eq_refl eq_refl eq_refl Nk)
    as (out & E & Hlen & Hpos).
  exists out. split; [exact E | split; [exact Hlen |]].
  split.
  - exact (Hpos 5%nat ltac:(vm_compute; lia)).
  - destruct (Hpos 7%nat ltac:(vm_compute; lia)) as (_ & U & _). exact U.
Defined.

(** ** The inverse transform *)

(** Modelled from the spec: the inverse of the rotation, which the
    program does not implement.  The specification describes it as the
    rotation "with the rotation offset negated", the modulo step being a
    non-negative modulo: the offset of the key letter is subtracted from
    the offset of the text letter, modulo 26, in the case range of the
    text letter. *)
Definition unrotate (c k : Z) : Z :=
  getFloor c + ((c - getFloor c) - (k - getFloor k)) mod 26.

(** Modelled from the spec: "the same position-cycling pass" with
    [unrotate] in the place of the rotation: position [j] takes the key
    character [j mod length key]; characters that are not letters are left
    alone. *)
Definition decipher (key text : list Z) : list Z :=
  map (fun j =>
         let c := nth j text 0 in
         if inBounds c
         then unrotate c
                (nth (Z.to_nat (Z.of_nat j mod Z.of_nat (List.length key))) key 0)
         else c)
      (seq 0 (List.length text)).

Lemma unrotate_rot (sg : bool) (c k : Z) :
  inBounds c = true -> inBounds k = true ->
  unrotate (calculateRotShift sg c k) k = c.
Proof.
  intros Hc Hk.
  destruct (rot_letters sg c k Hc Hk) as (R & E & B).
  destruct (rot_same_case sg c k Hc Hk) as (_ & _ & _ & F).
  destruct (letter_offset c Hc) as [Oc _].
  unfold unrotate. rewrite F, E.
  replace (getFloor c + rotModStep c k - getFloor c) with (rotModStep c k)
    by lia.
  rewrite R, Zminus_mod_idemp_l.
  replace (c - getFloor c + (k - getFloor k) - (k - getFloor k))
    with (c - getFloor c) by lia.
  rewrite Z.mod_small by lia. lia.
Qed.

(** C7.  With a canonical key that is not empty, the inverse pass under
    the same key gives back the text that [vigenere] enciphered. *)
Theorem decipher_vigenere (char_signed : bool) (beyond : Z -> Z -> Z)
    (p k : list Z)
    (Wp : cstring p = true) (Wk : cstring k = true)
    (Ck : canonical k = true) (Nk : k <> []) :
  exists out,
    text_ret (vigenere char_signed beyond (Some p) (Some k)) = Ptr out
    /\ decipher k out = p.
Proof.
  rewrite (vigenere_run char_signed beyond p k Wp Wk Nk). cbn [text_ret].
  exists (encipher_spec char_signed k p). split; [reflexivity |].
  apply (nth_ext _ _ 0 0).
  - unfold decipher. now rewrite length_map, length_seq, length_encipher_spec.
  - intros j Hj. unfold decipher in *.
    rewrite length_map, length_seq, length_encipher_spec in Hj.
    set (f := fun j : nat => _).
    rewrite (nth_indep _ 0 (f 0%nat))
      by now rewrite length_map, length_seq, length_encipher_spec.
    rewrite map_nth, seq_nth by now rewrite length_encipher_spec.
    subst f. cbn beta zeta. rewrite Nat.add_0_l.
    rewrite nth_encipher_spec by exact Hj. unfold cipher_at.
    destruct (inBounds (nth j p 0)) eqn:L.
    + pose proof (key_char_letter k j Ck Nk) as Lk.
      destruct (rot_same_case char_signed (nth j p 0) _ L Lk) as (B & _).
      rewrite B. apply unrotate_rot; assumption.
    + now rewrite L.
Qed.

Lemma decipher_vigenere_witness :
  exists out,
    text_ret (vigenere true (fun _ _ => 0)
                (Some (chars "Attack at dawn")) (Some (chars "lemon"))) = Ptr out
    /\ decipher (chars "lemon") out = chars "Attack at dawn".
Proof.
  assert (Nk : chars "lemon" <> []) by discriminate.
  exact (decipher_vigenere true (fun _ _ => 0)
           (chars "Attack at dawn") (chars "lemon") eq_refl eq_refl eq_refl Nk).
Defined.

(** ** Termination of the loop of [correctKey] *)

(** Every turn brings the cursor one step closer to [length], whether it
    keeps the character or drops it. *)
Lemma correctKey_body_measure (L : libc) (sg : bool) (i len : Z) (m : mem) :
  let '(i1, len1, _, _) := correctKey_body L sg i len m in
  len1 - (i1 + 1) = len - i - 1.
Proof.
  unfold correctKey_body.
  destruct (negb (inBounds (load m i)));
    match goal with
    | |- context [if ?b then _ else _] => destruct b
    end; lia.
Qed.

Lemma correctKey_loop_fuel (L : libc) (sg : bool) (fuel : nat) :
  forall (i len : Z) (m : mem),
    (Z.to_nat (len - i) <= fuel)%nat ->
    exists m' log, correctKey_loop L sg fuel i len m = Some (m', log).
Proof.
  induction fuel as [| fuel IH]; intros i len m F;
    rewrite correctKey_loop_eq; destruct (i <? len) eqn:T;
    try (do 2 eexists; reflexivity); apply Z.ltb_lt in T.
  - lia.
  - pose proof (correctKey_body_measure L sg i len m) as M.
    destruct (correctKey_body L sg i len m) as [[[i1 len1] m1] log].
    destruct (IH (i1 + 1) len1 m1 ltac:(lia)) as (m' & log' & ->).
    do 2 eexists; reflexivity.
Qed.

(** The fuel [correctKey] gives to its loop is always enough. *)
Lemma correctKey_fuel (L : libc) (sg : bool) (around : Z -> Z) (s : list Z) :
  exists r, key_ret (correctKey L sg around (Some s)) = Ptr r.
Proof.
  unfold correctKey. cbv zeta.
  set (m := {| str := s; outside := around |}).
  destruct (correctKey_loop_fuel L sg (Z.to_nat (int_of_size_t (strlen m)))
              0 (int_of_size_t (strlen m)) m) as (m' & log & ->).
  - rewrite Z.sub_0_r. apply le_n.
  - eexists; reflexivity.
Qed.

(** C9.  [correctKey] returns NULL exactly when its argument is NULL, and
    [vigenere] exactly when one of its arguments is NULL; a refused call
    touches no buffer; every other call returns a string. *)
Theorem null_reported_exactly (L : libc) (char_signed : bool)
    (around : Z -> Z) (beyond : Z -> Z -> Z) :
  (forall key,
      key_ret (correctKey L char_signed around key) = Null <-> key = None)
  /\ (forall p k,
         text_ret (vigenere char_signed beyond p k) = Null
         <-> (p = None \/ k = None))
  /\ key_accesses (correctKey L char_signed around None) = []
  /\ (forall p k, p = None \/ k = None ->
         text_steps (vigenere char_signed beyond p k) = [])
  /\ (forall s, exists r,
         key_ret (correctKey L char_signed around (Some s)) = Ptr r)
  /\ (forall p k, exists r,
         text_ret (vigenere char_signed beyond (Some p) (Some k)) = Ptr r).
Proof.
  split; [| split; [| split; [| split; [| split]]]].
  - intros [s |]; split; try reflexivity; try discriminate.
    destruct (correctKey_fuel L char_signed around s) as (r & ->). discriminate.
  - intros [p |] [k |]; split; auto; try (intros [? | ?]; discriminate).
    unfold vigenere. cbv zeta.
    destruct (vigenere_loop _ _ _ _ _ _) as [[? ?] ?]. discriminate.
  - reflexivity.
  - intros p k [-> | ->]; [reflexivity | destruct p; reflexivity].
  - apply correctKey_fuel.
  - intros p k. unfold vigenere. cbv zeta.
    destruct (vigenere_loop _ _ _ _ _ _) as [[? ?] ?]. eexists; reflexivity.
Qed.

Lemma null_reported_exactly_witness :
  key_ret (correctKey two_window_libc true (fun _ => 0) None) = Null
  /\ text_ret (vigenere true (fun _ _ => 0) (Some (chars "abc")) None) = Null
  /\ text_steps (vigenere true (fun _ _ => 0) None (Some (chars "key"))) = [].
Proof.
  destruct (null_reported_exactly two_window_libc true (fun _ => 0)
              (fun _ _ => 0))
    as (K & V & _ & S & _).
  split; [| split].
  - apply K. reflexivity.
  - apply V. right. reflexivity.
  - apply S. left. reflexivity.
Defined.

(** ** Memory safety of the scan of [correctKey] *)

(** When the string starts with a character that is not a letter, the
    first turn drops it, steps the cursor back to [-1] and tests
    [key[-1]] for an uppercase letter. *)
Lemma correctKey_reads_before_buffer (L : libc) (sg : bool)
    (around : Z -> Z) (c : Z) (rest : list Z) :
  inBounds c = false -> cstring (c :: rest) = true ->
  In (-1, Z.of_nat (List.length rest))
     (key_accesses (correctKey L sg around (Some (c :: rest)))).
Proof.
  intros Lc W.
  destruct (correctKey_run L sg around (c :: rest) W) as (m' & log & -> & E).
  cbn [key_accesses]. apply in_or_app. left.
  rewrite correctKey_loop_eq in E.
  replace (0 <? Z.of_nat (List.length (c :: rest))) with true in E
    by (symmetry; apply Z.ltb_lt; simpl; lia).
  destruct (correctKey_body_drop L sg [] rest c
              (Z.of_nat (List.length (c :: rest))) around Lc (Forall_nil _))
    as (out' & log0 & B & _ & Hin).
  cbn [List.length app] in B. change (Z.of_nat 0) with 0 in B.
  cbn [List.length] in E. rewrite B in E.
  destruct (correctKey_loop L sg (List.length rest) (0 - 1 + 1)
              (Z.of_nat (S (List.length rest)) - 1)
              {| str := strcpy_overlap L 0 rest; outside := out' |})
    as [[m'' log''] |]; [| discriminate].
  injection E as _ <-. apply in_or_app. left. now apply Hin.
Qed.

(** When the string is empty or starts with a letter, every index of the
    scan lies between 0 and the length of the string at that moment. *)
Lemma correctKey_accesses_in_buffer (L : libc) (sg : bool)
    (around : Z -> Z) (s : list Z) :
  cstring s = true ->
  match s with [] => True | c :: _ => inBounds c = true end ->
  forallb in_buffer (key_accesses (correctKey L sg around (Some s))) = true.
Proof.
  intros W H.
  destruct (correctKey_run L sg around s W) as (m' & log & -> & E).
  cbn [key_accesses]. rewrite forallb_app. apply andb_true_iff. split.
  - destruct s as [| c rest].
    + rewrite correctKey_loop_eq in E. cbn in E. now injection E as _ <-.
    + rewrite correctKey_loop_eq in E.
      replace (0 <? Z.of_nat (List.length (c :: rest))) with true in E
        by (symmetry; apply Z.ltb_lt; simpl; lia).
      destruct (correctKey_body_keep L sg [] rest c
                  (Z.of_nat (List.length (c :: rest))) around H)
        as (log0 & B & S0).
      cbn [List.length app] in B. change (Z.of_nat 0) with 0 in B.
      cbn [List.length] in E. rewrite B in E.
      assert (N : no_upper [toLower c]).
      { constructor; [apply toLower_not_upper | constructor]. }
      destruct (correctKey_loop_spec L sg (List.length rest) rest
                  [toLower c] around (List.length rest) eq_refl N (le_n _))
        as (m'' & log'' & E' & _ & S').
      cbn [List.length app Nat.add] in E'.
      change (Z.of_nat 1) with (0 + 1) in E'.
      rewrite E' in E. injection E as _ <-.
      rewrite forallb_app, S0. apply S'. discriminate.
  - unfold in_buffer, acc, strlen. cbn [forallb fst snd].
    rewrite andb_true_r. apply andb_true_iff.
    split; apply Z.leb_le; lia.
Qed.

(** C10 fails on the code.  On "1a" the scan drops the digit, moves the
    cursor to [-1] and reads [key[-1]], the byte in front of the buffer,
    to test it for an uppercase letter: the recorded index [-1] is not
    between 0 and the length of the string (1 at that moment). *)
Theorem correctKey_leading_digit_reads_index_minus_one
    (L : libc) (char_signed : bool) (around : Z -> Z) :
  In (-1, 1)
     (key_accesses (correctKey L char_signed around (Some (chars "1a"))))
  /\ in_buffer (-1, 1) = false
  /\ forallb in_buffer
       (key_accesses (correctKey L char_signed around (Some (chars "1a"))))
     = false.
Proof.
  pose proof (correctKey_reads_before_buffer L char_signed around 49 [97]
                eq_refl eq_refl) as H.
  change (49 :: [97]) with (chars "1a") in H.
  change (Z.of_nat (List.length [97])) with 1 in H.
  split; [exact H | split; [reflexivity |]].
  apply not_true_iff_false. intros A.
  rewrite forallb_forall in A. specialize (A _ H). discriminate.
Qed.

(** ** The empty key *)

Section EmptyKey.
Variable char_signed : bool.
Variable beyond : Z -> Z -> Z.
Variable plainText : list Z.

(** The step the pass makes at position [j] under the empty key: the
    wrap test [keyi == keylen] holds at position 0 only, and the cursor
    is never brought back after that. *)
Definition empty_key_step (j : nat) : step :=
  {| pos := Z.of_nat j; cursor := Z.of_nat j;
     key_read := inBounds (nth j plainText 0);
     next_cursor := Z.of_nat j + 1 |}.

Lemma vigenere_empty_key_prefix (n : nat) :
  (n <= List.length plainText)%nat ->
  exists text,
    fold_left (vigenere_body char_signed beyond [] 0)
      (map Z.of_nat (seq 0 n)) (0, plainText, [])
    = (Z.of_nat n, text, map empty_key_step (seq 0 n))
    /\ List.length text = List.length plainText
    /\ forall j, (n <= j)%nat -> nth j text 0 = nth j plainText 0.
Proof.
  induction n as [| n IH]; intros Hn.
  - exists plainText. repeat split; reflexivity.
  - destruct IH as (text & E & Hlen & Hnth); [lia |].
    rewrite seq_S, map_app, fold_left_app, E.
    cbn [map fold_left Nat.add]. unfold vigenere_body.
    replace (if Z.of_nat n =? 0 then 0 else Z.of_nat n) with (Z.of_nat n)
      by (destruct (Z.of_nat n =? 0) eqn:T;
          [apply Z.eqb_eq in T; lia | reflexivity]).
    rewrite Nat2Z.id, (Hnth n) by lia.
    eexists. split; [| split].
    + rewrite map_app. cbn [map]. unfold empty_key_step at 3.
      replace (Z.of_nat (S n)) with (Z.of_nat n + 1) by lia.
      reflexivity.
    + destruct (inBounds (nth n plainText 0));
        [rewrite set_nth_length |]; exact Hlen.
    + intros j Hj.
      destruct (inBounds (nth n plainText 0));
        [rewrite nth_set_nth_other by lia |]; apply Hnth; lia.
Qed.

(** Under the empty key the pass makes one turn per character of the
    text and uses index [j] on the key at position [j]. *)
Lemma vigenere_empty_key_steps :
  cstring plainText = true ->
  text_steps (vigenere char_signed beyond (Some plainText) (Some []))
  = map empty_key_step (seq 0 (List.length plainText)).
Proof.
  intros W. unfold vigenere, vigenere_loop. cbv zeta.
  rewrite (cstring_length plainText W), Nat2Z.id.
  change (int_of_size_t (Z.of_nat (List.length (@nil Z)))) with 0.
  destruct (vigenere_empty_key_prefix (List.length plainText) (le_n _))
    as (text & -> & _).
  reflexivity.
Qed.
End EmptyKey.

(** C8 fails on the code.  With the empty key the buffer of the key holds
    the terminator only, at index 0.  On "ab" the pass makes its two
    turns and divides by nothing, but the cursor is reset at position 0
    only ([keyi == keylen] never holds again once [keyi] is 1): at
    position 1 the code reads [key[1]], past the terminator, outside the
    buffer. *)
Theorem vigenere_empty_key_reads_past_terminator
    (char_signed : bool) (beyond : Z -> Z -> Z) :
  let r := vigenere char_signed beyond (Some (chars "ab")) (Some []) in
  text_steps r
  = [ {| pos := 0; cursor := 0; key_read := true; next_cursor := 1 |};
      {| pos := 1; cursor := 1; key_read := true; next_cursor := 2 |} ]
  /\ key_reads [] (text_steps r) = [(0, 0); (1, 0)]
  /\ forallb in_buffer (key_reads [] (text_steps r)) = false.
Proof.
  cbv zeta.
  rewrite (vigenere_empty_key_steps char_signed beyond (chars "ab") eq_refl).
  repeat split.
Qed.


(** * Beyond the canonical key

    The pass of [vigenere] for every key, the empty one included: the
    cursor of position [j] is [j mod keylen], where a modulus of zero
    leaves [j] as it is (the cursor of the empty key is never brought
    back). *)

Section VigenereAnyKey.
Variable char_signed : bool.
Variable beyond : Z -> Z -> Z.
Variable key : list Z.
Variable plainText : list Z.

(** The byte [key[keyi]] that position [j] reads: a character of the
    key, its terminator, or a byte past it. *)
Definition key_byte_at (j : nat) : Z :=
  load {| str := key; outside := beyond (Z.of_nat j) |}
       (Z.of_nat j mod Z.of_nat (List.length key)).

(** The character the pass leaves at position [j]. *)
Definition pass_at (j : nat) : Z :=
  let c := nth j plainText 0 in
  if inBounds c then calculateRotShift char_signed c (key_byte_at j) else c.

Lemma cursor_wraps (n keylen : Z) :
  0 <= n -> 0 <= keylen ->
  (if n mod keylen + 1 =? keylen then 0 else n mod keylen + 1)
  = (n + 1) mod keylen.
Proof.
  intros Hn Hk. destruct (Z.eq_dec keylen 0) as [-> | Hz].
  - rewrite !Z.mod_0_r.
    destruct (n + 1 =? 0) eqn:T; [apply Z.eqb_eq in T; lia | reflexivity].
  - pose proof (Z.mod_pos_bound n keylen ltac:(lia)) as B.
    destruct (n mod keylen + 1 =? keylen) eqn:T.
    + apply Z.eqb_eq in T.
      rewrite <- Zplus_mod_idemp_l, T, Z.mod_same by lia. reflexivity.
    + apply Z.eqb_neq in T.
      rewrite <- Zplus_mod_idemp_l. symmetry. apply Z.mod_small. lia.
Qed.

Lemma vigenere_prefix_any (n : nat) :
  (n <= List.length plainText)%nat ->
  exists keyi text,
    fold_left (vigenere_body char_signed beyond key
                 (Z.of_nat (List.length key)))
      (map Z.of_nat (seq 0 n)) (0, plainText, [])
    = (keyi, text, map (step_at key plainText) (seq 0 n))
    /\ (if keyi =? Z.of_nat (List.length key) then 0 else keyi)
       = Z.of_nat n mod Z.of_nat (List.length key)
    /\ List.length text = List.length plainText
    /\ forall j, nth j text 0
                 = if (j <? n)%nat then pass_at j else nth j plainText 0.
Proof.
  induction n as [| n IH]; intros Hn.
  - exists 0, plainText. cbn [seq map fold_left Z.of_nat].
    repeat split.
    destruct (0 =? Z.of_nat (List.length key)) eqn:E.
    + apply Z.eqb_eq in E. rewrite <- E. reflexivity.
    + destruct (Z.eq_dec (Z.of_nat (List.length key)) 0) as [Z0 | NZ].
      * rewrite Z0. reflexivity.
      * symmetry. apply Z.mod_0_l. exact NZ.
  - destruct IH as (keyi & text & E & Hmod & Hlen & Hnth); [lia |].
    rewrite seq_S, map_app, fold_left_app, E.
    cbn [map fold_left Nat.add]. unfold vigenere_body.
    rewrite Hmod. rewrite Nat2Z.id, (Hnth n), Nat.ltb_irrefl.
    eexists. eexists. split; [| split; [| split]].
    + rewrite map_app. reflexivity.
    + replace (Z.of_nat (S n)) with (Z.of_nat n + 1) by lia.
      apply cursor_wraps; lia.
    + destruct (inBounds (nth n plainText 0));
        [rewrite set_nth_length |]; exact Hlen.
    + intros j. unfold pass_at, key_byte_at.
      destruct (Nat.eq_dec j n) as [-> | Hj].
      * replace (n <? S n)%nat with true by (symmetry; apply Nat.ltb_lt; lia).
        cbv zeta. destruct (inBounds (nth n plainText 0)) eqn:L.
        -- rewrite nth_set_nth_same by lia. reflexivity.
        -- rewrite Hnth, Nat.ltb_irrefl. reflexivity.
      * assert (Hj' : (j <? S n)%nat = (j <? n)%nat).
        { destruct (j <? n)%nat eqn:T.
          - apply Nat.ltb_lt in T. apply Nat.ltb_lt. lia.
          - apply Nat.ltb_ge in T. apply Nat.ltb_ge. lia. }
        rewrite Hj'.
        destruct (inBounds (nth n plainText 0));
          [rewrite nth_set_nth_other by exact Hj |]; apply Hnth.
Qed.
End VigenereAnyKey.

(** The run of [vigenere] on two strings, whatever the key. *)
Lemma vigenere_run_any (sg : bool) (beyond : Z -> Z -> Z) (p k : list Z) :
  cstring p = true -> cstring k = true ->
  vigenere sg beyond (Some p) (Some k)
  = {| text_ret := Ptr (map (pass_at sg beyond k p) (seq 0 (List.length p)));
       text_steps := map (step_at k p) (seq 0 (List.length p));
       text_printed := [] |}.
Proof.
  intros Wp Wk. unfold vigenere, vigenere_loop. cbv zeta.
  rewrite (cstring_length p Wp), (cstring_length k Wk), Nat2Z.id.
  destruct (vigenere_prefix_any sg beyond k p (List.length p) (le_n _))
    as (keyi & text & E & _ & Hlen & Hnth).
  rewrite E. f_equal. f_equal.
  apply (nth_ext _ _ 0 0).
  - now rewrite length_map, length_seq.
  - intros j Hj. rewrite Hlen in Hj. rewrite Hnth.
    replace (j <? List.length p)%nat with true
      by (symmetry; now apply Nat.ltb_lt).
    rewrite (nth_indep _ 0 (pass_at sg beyond k p 0))
      by now rewrite length_map, length_seq.
    rewrite map_nth, seq_nth by exact Hj. reflexivity.
Qed.

Lemma nth_pass (sg : bool) (beyond : Z -> Z -> Z) (p k : list Z) (j : nat) :
  (j < List.length p)%nat ->
  nth j (map (pass_at sg beyond k p) (seq 0 (List.length p))) 0
  = pass_at sg beyond k p j.
Proof.
  intros Hj.
  rewrite (nth_indep _ 0 (pass_at sg beyond k p 0))
    by now rewrite length_map, length_seq.
  rewrite map_nth, seq_nth by exact Hj. reflexivity.
Qed.

(** ** The rotation under any key byte *)

(** Whatever the second argument, the rotation of a letter stays within
    25 places of the floor of its case: the remainder of C lies strictly
    between -26 and 26, and the result fits a [char] of either
    signedness. *)
Lemma rot_any_key_range (sg : bool) (c o : Z) :
  inBounds c = true ->
  calculateRotShift sg c o = getFloor c + rotModStep c o
  /\ getFloor c - 25 <= calculateRotShift sg c o <= getFloor c + 25.
Proof.
  intros Hc. destruct (letter_offset c Hc) as [_ F].
  pose proof (Z.rem_bound_abs ((c + o) - (getFloor c + getFloor o)) 26
                ltac:(lia)) as B.
  fold (rotModStep c o) in B.
  assert (E : calculateRotShift sg c o = getFloor c + rotModStep c o).
  { unfold calculateRotShift. cbv zeta. fold (rotModStep c o).
    rewrite to_char_ascii by lia. lia. }
  split; [exact E | lia].
Qed.

Lemma cstring_intro (s : list Z) :
  (forall j, (j < List.length s)%nat -> nth j s 0 <> 0) ->
  Z.of_nat (List.length s) <= INT_MAX ->
  cstring s = true.
Proof.
  intros Hnz Hlen. unfold cstring. apply andb_true_iff. split.
  - apply forallb_forall. intros x Hx.
    destruct (In_nth s x 0 Hx) as (j & Hj & <-).
    apply negb_true_iff, Z.eqb_neq, Hnz, Hj.
  - now apply Z.leb_le.
Qed.

Lemma cstring_nth (s : list Z) (j : nat) :
  cstring s = true -> (j < List.length s)%nat -> nth j s 0 <> 0.
Proof.
  unfold cstring. intros W Hj. apply andb_true_iff in W. destruct W as [W _].
  rewrite forallb_forall in W.
  specialize (W (nth j s 0) (nth_In s 0 Hj)).
  now apply negb_true_iff, Z.eqb_neq in W.
Qed.

(** X1.  Whatever the key -- canonical or not, empty or not, and whatever
    lies past its terminator -- [vigenere] hands back a C string of the
    length of the text: no terminator is written into it, a character
    that is not a letter is left as it is, and a letter is moved by at
    most 25 places from the floor of its case. *)
Theorem vigenere_any_key_keeps_string (char_signed : bool)
    (beyond : Z -> Z -> Z) (p k : list Z)
    (Wp : cstring p = true) (Wk : cstring k = true) :
  exists out,
    text_ret (vigenere char_signed beyond (Some p) (Some k)) = Ptr out
    /\ List.length out = List.length p
    /\ cstring out = true
    /\ forall j, (j < List.length p)%nat ->
         if inBounds (nth j p 0)
         then getFloor (nth j p 0) - 25 <= nth j out 0
              <= getFloor (nth j p 0) + 25
         else nth j out 0 = nth j p 0.
Proof.
  rewrite (vigenere_run_any char_signed beyond p k Wp Wk). cbn [text_ret].
  eexists. split; [reflexivity |].
  assert (Hlen : List.length (map (pass_at char_signed beyond k p)
                                (seq 0 (List.length p))) = List.length p)
    by now rewrite length_map, length_seq.
  assert (Hpos : forall j, (j < List.length p)%nat ->
            if inBounds (nth j p 0)
            then getFloor (nth j p 0) - 25
                 <= nth j (map (pass_at char_signed beyond k p)
                             (seq 0 (List.length p))) 0
                 <= getFloor (nth j p 0) + 25
            else nth j (map (pass_at char_signed beyond k p)
                          (seq 0 (List.length p))) 0 = nth j p 0).
  { intros j Hj. rewrite nth_pass by exact Hj. unfold pass_at. cbv zeta.
    destruct (inBounds (nth j p 0)) eqn:L; [| reflexivity].
    apply rot_any_key_range, L. }
  split; [exact Hlen | split; [| exact Hpos]].
  apply cstring_intro.
  - rewrite Hlen. intros j Hj. specialize (Hpos j Hj).
    destruct (inBounds (nth j p 0)) eqn:L.
    + destruct (letter_offset _ L) as [_ F]. lia.
    + rewrite Hpos. now apply cstring_nth.
  - rewrite Hlen. unfold cstring in Wp. apply andb_true_iff in Wp.
    destruct Wp as [_ Wp]. now apply Z.leb_le in Wp.
Qed.

Lemma vigenere_any_key_keeps_string_witness :
  exists out,
    text_ret (vigenere false (fun _ j => j)
                (Some (chars "a-Z")) (Some (chars "4!"))) = Ptr out
    /\ List.length out = 3%nat
    /\ cstring out = true.
Proof.
  destruct (vigenere_any_key_keeps_string false (fun _ j => j)
              (chars "a-Z") (chars "4!") eq_refl eq_refl)
    as (out & E & Hlen & W & _).
  exists out. auto.
Defined.

(** X2.  With a key that is not empty, every index the pass uses on the
    key lies in the key itself: from 0 up to, but not including, the
    index of the terminator. *)
Theorem vigenere_key_reads_inside_key (char_signed : bool)
    (beyond : Z -> Z -> Z) (p k : list Z)
    (Wp : cstring p = true) (Wk : cstring k = true) (Nk : k <> []) :
  Forall (fun a : access => 0 <= fst a < snd a)
    (key_reads k (text_steps (vigenere char_signed beyond (Some p) (Some k)))).
Proof.
  rewrite (vigenere_run_any char_signed beyond p k Wp Wk). cbn [text_steps].
  unfold key_reads. apply Forall_forall. intros a Ha.
  apply in_map_iff in Ha. destruct Ha as (s & <- & Hs).
  apply filter_In in Hs. destruct Hs as [Hs _].
  apply in_map_iff in Hs. destruct Hs as (j & <- & _).
  cbn [fst snd cursor step_at].
  apply Z.mod_pos_bound. destruct k; [contradiction | simpl; lia].
Qed.

Lemma vigenere_key_reads_inside_key_witness :
  Forall (fun a : access => 0 <= fst a < snd a)
    (key_reads (chars "key")
       (text_steps (vigenere true (fun _ _ => 0)
                      (Some (chars "Hello, World!")) (Some (chars "key"))))).
Proof.
  assert (Nk : chars "key" <> []) by discriminate.
  exact (vigenere_key_reads_inside_key true (fun _ _ => 0)
           (chars "Hello, World!") (chars "key") eq_refl eq_refl Nk).
Defined.

(** ** More on the empty key *)

(** X3.  Under the empty key the pass stays inside the buffer of the key
    exactly when the text has no letter after its first character: a
    letter at position [j] makes the code read [key[j]], and only index
    0, the terminator, belongs to the buffer. *)
Theorem vigenere_empty_key_safe_iff (char_signed : bool)
    (beyond : Z -> Z -> Z) (p : list Z) (Wp : cstring p = true) :
  forallb in_buffer
    (key_reads [] (text_steps (vigenere char_signed beyond (Some p) (Some []))))
  = true
  <-> forall j, (1 <= j < List.length p)%nat -> inBounds (nth j p 0) = false.
Proof.
  rewrite (vigenere_run_any char_signed beyond p [] Wp eq_refl).
  cbn [text_steps]. unfold key_reads. rewrite forallb_forall. split.
  - intros H j Hj. apply not_true_iff_false. intros L.
    assert (Hin : In (Z.of_nat j, 0)
                    (map (fun s : step => (cursor s, Z.of_nat (List.length (@nil Z))))
                       (filter key_read
                          (map (step_at [] p) (seq 0 (List.length p)))))).
    { apply in_map_iff. exists (step_at [] p j). split.
      - cbn [step_at cursor List.length Z.of_nat]. now rewrite Z.mod_0_r.
      - apply filter_In. split.
        + apply in_map, in_seq. lia.
        + exact L. }
    specialize (H _ Hin). unfold in_buffer in H. cbn [fst snd] in H.
    apply andb_true_iff in H. destruct H as [_ H]. apply Z.leb_le in H. lia.
  - intros H a Ha.
    apply in_map_iff in Ha. destruct Ha as (s & <- & Hs).
    apply filter_In in Hs. destruct Hs as [Hs R].
    apply in_map_iff in Hs. destruct Hs as (j & <- & Hj).
    apply in_seq in Hj. cbn [key_read step_at] in R.
    destruct j as [| j].
    + reflexivity.
    + rewrite H in R by lia. discriminate.
Qed.

Lemma vigenere_empty_key_safe_iff_witness :
  forallb in_buffer
    (key_reads [] (text_steps (vigenere true (fun _ _ => 0)
                                 (Some (chars "a 1!")) (Some []))))
  = true.
Proof.
  apply (vigenere_empty_key_safe_iff true (fun _ _ => 0) (chars "a 1!") eq_refl).
  intros [| [| [| [| j]]]] Hj; try reflexivity; simpl in Hj; lia.
Defined.

(** The rotation by the terminator: the floor taken for a byte that is
    not a lowercase letter is ['A'], so the operand of [%] is negative
    and the remainder of C is negative or zero. *)
Lemma rot_terminator (sg : bool) (c : Z) :
  inBounds c = true ->
  calculateRotShift sg c 0
  = if c - getFloor c <=? 13 then c - 13 else c - 39.
Proof.
  intros Hc. destruct (rot_any_key_range sg c 0 Hc) as [E _].
  destruct (letter_offset c Hc) as [O _].
  rewrite E. unfold rotModStep.
  change (getFloor 0) with 65.
  replace (c + 0 - (getFloor c + 65)) with (- (65 - (c - getFloor c))) by lia.
  rewrite Z.rem_opp_l, Z.rem_mod_nonneg by lia.
  destruct (c - getFloor c <=? 13) eqn:T.
  - apply Z.leb_le in T.
    replace (65 - (c - getFloor c))
      with ((13 - (c - getFloor c)) + 2 * 26) by lia.
    rewrite Z.mod_add, Z.mod_small by lia. lia.
  - apply Z.leb_gt in T.
    replace (65 - (c - getFloor c))
      with ((39 - (c - getFloor c)) + 1 * 26) by lia.
    rewrite Z.mod_add, Z.mod_small by lia. lia.
Qed.

(** X4.  The empty key is not a neutral key.  The first character of the
    text meets the terminator of the key: a letter there is moved down by
    13 places (by 39 for the letters after n or N) without wrapping, and
    leaves the range of its case unless it is n or N. *)
Theorem vigenere_empty_key_first_letter (char_signed : bool)
    (beyond : Z -> Z -> Z) (c : Z) (rest : list Z)
    (W : cstring (c :: rest) = true) (L : inBounds c = true) :
  exists out,
    text_ret (vigenere char_signed beyond (Some (c :: rest)) (Some []))
    = Ptr out
    /\ nth 0 out 0 = (if c - getFloor c <=? 13 then c - 13 else c - 39)
    /\ (c - getFloor c <> 13 -> same_case c (nth 0 out 0) = false).
Proof.
  rewrite (vigenere_run_any char_signed beyond (c :: rest) [] W eq_refl).
  cbn [text_ret]. eexists. split; [reflexivity |].
  rewrite nth_pass by (simpl; lia).
  unfold pass_at, key_byte_at. cbn [nth List.length Z.of_nat].
  rewrite L, Z.mod_0_r.
  change (load {| str := []; outside := beyond 0 |} 0) with 0.
  rewrite (rot_terminator char_signed c L).
  split; [reflexivity |].
  intros N. destruct (letter_offset c L) as [O F].
  unfold same_case. apply andb_false_iff.
  apply inBounds_spec in L. destruct L as [Lo | Up].
  - right. rewrite (proj2 (isLowercase_spec c) Lo).
    rewrite (getFloor_lower c Lo) in *.
    destruct (c - 97 <=? 13) eqn:T.
    + apply Z.leb_le in T.
      replace (isLowercase (c - 13)) with false; [reflexivity |].
      symmetry. apply not_true_iff_false. rewrite isLowercase_spec. lia.
    + apply Z.leb_gt in T.
      replace (isLowercase (c - 39)) with false; [reflexivity |].
      symmetry. apply not_true_iff_false. rewrite isLowercase_spec. lia.
  - left. rewrite (proj2 (isUppercase_spec c) Up).
    rewrite (getFloor_upper c Up) in *.
    destruct (c - 65 <=? 13) eqn:T.
    + apply Z.leb_le in T.
      replace (isUppercase (c - 13)) with false; [reflexivity |].
      symmetry. apply not_true_iff_false. rewrite isUppercase_spec. lia.
    + apply Z.leb_gt in T.
      replace (isUppercase (c - 39)) with false; [reflexivity |].
      symmetry. apply not_true_iff_false. rewrite isUppercase_spec. lia.
Qed.

Lemma vigenere_empty_key_first_letter_witness :
  exists out,
    text_ret (vigenere true (fun _ _ => 0) (Some (chars "h")) (Some []))
    = Ptr out
    /\ nth 0 out 0 = 91.
Proof.
  destruct (vigenere_empty_key_first_letter true (fun _ _ => 0) 104 []
              eq_refl eq_refl) as (out & E & H & _).
  exists out. split; [exact E | exact H].
Defined.

(** ** The case of the key *)

Lemma getFloor_toLower (x : Z) : x - getFloor x = toLower x - getFloor (toLower x).
Proof.
  unfold toLower. destruct (isUppercase x) eqn:U; [| reflexivity].
  apply isUppercase_spec in U.
  rewrite (getFloor_upper x U).
  rewrite (getFloor_lower (x + range_distance))
    by (unfold range_distance; lia).
  unfold range_distance. lia.
Qed.

(** An uppercase key letter rotates like its lowercase counterpart. *)
Lemma rot_key_toLower (sg : bool) (c x : Z) :
  calculateRotShift sg c x = calculateRotShift sg c (toLower x).
Proof.
  unfold calculateRotShift. cbv zeta.
  pose proof (getFloor_toLower x) as E.
  replace (c + x - (getFloor c + getFloor x))
    with (c + toLower x - (getFloor c + getFloor (toLower x))) by lia.
  reflexivity.
Qed.

Lemma toLower_nonzero (x : Z) : x <> 0 -> toLower x <> 0.
Proof.
  intros N. unfold toLower. destruct (isUppercase x) eqn:U; [| exact N].
  apply isUppercase_spec in U. unfold range_distance. lia.
Qed.

Lemma cstring_map_toLower (k : list Z) :
  cstring k = true -> cstring (map toLower k) = true.
Proof.
  intros W. apply cstring_intro.
  - rewrite length_map. intros j Hj.
    rewrite (nth_indep _ 0 (toLower 0)) by now rewrite length_map.
    rewrite map_nth. apply toLower_nonzero. now apply cstring_nth.
  - rewrite length_map. unfold cstring in W. apply andb_true_iff in W.
    destruct W as [_ W]. now apply Z.leb_le in W.
Qed.

(** X5.  The case of the key does not matter: [vigenere] run with a key
    gives what it gives with the key folded to lowercase (the quirk the
    comment of [calculateRotShift] announces: the case of the result is
    that of the text, the key only brings its offset). *)
Theorem vigenere_key_case_blind (char_signed : bool) (beyond : Z -> Z -> Z)
    (p k : list Z) (Wp : cstring p = true) (Wk : cstring k = true) :
  vigenere char_signed beyond (Some p) (Some k)
  = vigenere char_signed beyond (Some p) (Some (map toLower k)).
Proof.
  rewrite (vigenere_run_any char_signed beyond p k Wp Wk).
  rewrite (vigenere_run_any char_signed beyond p (map toLower k) Wp
             (cstring_map_toLower k Wk)).
  f_equal.
  - f_equal. apply map_ext_in. intros j Hj.
    unfold pass_at, key_byte_at. cbv zeta. rewrite length_map.
    destruct (inBounds (nth j p 0)); [| reflexivity].
    destruct k as [| k0 k'] eqn:Ek; [reflexivity |]. rewrite <- Ek in *.
    assert (B : 0 <= Z.of_nat j mod Z.of_nat (List.length k)
                < Z.of_nat (List.length k)).
    { apply Z.mod_pos_bound. subst k. simpl. lia. }
    rewrite !load_inside by (rewrite ?length_map; exact B).
    rewrite (nth_indep (map toLower k) 0 (toLower 0))
      by (rewrite length_map; lia).
    rewrite map_nth. apply rot_key_toLower.
  - apply map_ext. intros j. unfold step_at. now rewrite length_map.
Qed.

Lemma vigenere_key_case_blind_witness :
  text_ret (vigenere true (fun _ _ => 0)
              (Some (chars "Attack at dawn")) (Some (chars "LeMoN")))
  = Ptr (chars "Lxfopv mh oeib").
Proof.
  rewrite (vigenere_key_case_blind true (fun _ _ => 0)
             (chars "Attack at dawn") (chars "LeMoN") eq_refl eq_refl).
  vm_compute. reflexivity.
Defined.

(** ** Two passes in a row *)

Lemma encipher_spec_cstring (sg : bool) (k p : list Z) :
  cstring p = true -> cstring (encipher_spec sg k p) = true.
Proof.
  intros W. apply cstring_intro.
  - rewrite length_encipher_spec. intros j Hj.
    rewrite nth_encipher_spec by exact Hj. unfold cipher_at. cbv zeta.
    destruct (inBounds (nth j p 0)) eqn:L.
    + destruct (rot_any_key_range sg (nth j p 0)
                  (nth (Z.to_nat (Z.of_nat j mod Z.of_nat (List.length k))) k 0)
                  L) as [_ R].
      destruct (letter_offset _ L) as [_ F]. lia.
    + now apply cstring_nth.
  - rewrite length_encipher_spec. unfold cstring in W.
    apply andb_true_iff in W. destruct W as [_ W]. now apply Z.leb_le in W.
Qed.

(** The key letter of position [j], as an offset in the alphabet. *)
Definition key_offset (k : list Z) (j : nat) : Z :=
  nth (Z.to_nat (Z.of_nat j mod Z.of_nat (List.length k))) k 0
  - lowercase_lower.

Lemma cipher_at_offset (sg : bool) (k p : list Z) (j : nat) :
  canonical k = true -> k <> [] ->
  cipher_at sg k p j
  = if inBounds (nth j p 0)
    then getFloor (nth j p 0)
         + ((nth j p 0 - getFloor (nth j p 0)) + key_offset k j) mod 26
    else nth j p 0.
Proof.
  intros C N. unfold cipher_at, key_offset. cbv zeta.
  destruct (inBounds (nth j p 0)) eqn:L; [| reflexivity].
  pose proof (key_char_letter k j C N) as Lk.
  destruct (rot_letters sg (nth j p 0) _ L Lk) as (R & E & _).
  rewrite E, R.
  set (kc := nth (Z.to_nat (Z.of_nat j mod Z.of_nat (List.length k))) k 0) in *.
  assert (Hk : 97 <= kc <= 122).
  { apply canonical_nth; [exact C |].
    assert (0 < Z.of_nat (List.length k))
      by (destruct k; [contradiction | simpl; lia]).
    pose proof (Z.mod_pos_bound (Z.of_nat j) (Z.of_nat (List.length k))
                  ltac:(lia)). lia. }
  rewrite (getFloor_lower kc Hk). reflexivity.
Qed.

(** Two passes add their offsets. *)
Lemma double_pass (sg : bool) (k1 k2 p : list Z) (j : nat) :
  canonical k1 = true -> k1 <> [] -> canonical k2 = true -> k2 <> [] ->
  (j < List.length p)%nat ->
  nth j (encipher_spec sg k2 (encipher_spec sg k1 p)) 0
  = if inBounds (nth j p 0)
    then getFloor (nth j p 0)
         + ((nth j p 0 - getFloor (nth j p 0))
            + key_offset k1 j + key_offset k2 j) mod 26
    else nth j p 0.
Proof.
  intros C1 N1 C2 N2 Hj.
  rewrite nth_encipher_spec by now rewrite length_encipher_spec.
  rewrite (cipher_at_offset sg k2 _ j C2 N2).
  rewrite nth_encipher_spec by exact Hj.
  rewrite (cipher_at_offset sg k1 p j C1 N1).
  destruct (inBounds (nth j p 0)) eqn:L; [| now rewrite L].
  destruct (letter_offset _ L) as [O F].
  set (c := nth j p 0) in *.
  pose proof (Z.mod_pos_bound (c - getFloor c + key_offset k1 j) 26
                ltac:(lia)) as B.
  remember (getFloor c + (c - getFloor c + key_offset k1 j) mod 26) as r
    eqn:Er.
  assert (Fr : getFloor r = getFloor c /\ inBounds r = true).
  { destruct F as [F | F]; rewrite F in *.
    - split; [apply getFloor_upper | apply inBounds_spec; right]; lia.
    - split; [apply getFloor_lower | apply inBounds_spec; left]; lia. }
  destruct Fr as [Fr Lr]. rewrite Lr, Fr. subst r.
  replace (getFloor c + (c - getFloor c + key_offset k1 j) mod 26 - getFloor c)
    with ((c - getFloor c + key_offset k1 j) mod 26) by lia.
  now rewrite Zplus_mod_idemp_l.
Qed.

(** X6.  Two passes commute: enciphering under [k1] and then under [k2]
    gives the text that [k2] and then [k1] give. *)
Theorem vigenere_passes_commute (char_signed : bool) (beyond : Z -> Z -> Z)
    (p k1 k2 : list Z)
    (Wp : cstring p = true)
    (W1 : cstring k1 = true) (C1 : canonical k1 = true) (N1 : k1 <> [])
    (W2 : cstring k2 = true) (C2 : canonical k2 = true) (N2 : k2 <> []) :
  exists a b c,
    text_ret (vigenere char_signed beyond (Some p) (Some k1)) = Ptr a
    /\ text_ret (vigenere char_signed beyond (Some a) (Some k2)) = Ptr c
    /\ text_ret (vigenere char_signed beyond (Some p) (Some k2)) = Ptr b
    /\ text_ret (vigenere char_signed beyond (Some b) (Some k1)) = Ptr c.
Proof.
  exists (encipher_spec char_signed k1 p), (encipher_spec char_signed k2 p),
    (encipher_spec char_signed k2 (encipher_spec char_signed k1 p)).
  rewrite !vigenere_run
    by (assumption || apply encipher_spec_cstring; assumption).
  cbn [text_ret]. repeat split.
  f_equal. apply (nth_ext _ _ 0 0).
  - now rewrite !length_encipher_spec.
  - intros j Hj. rewrite !length_encipher_spec in Hj.
    rewrite !double_pass by assumption.
    destruct (inBounds (nth j p 0)); [| reflexivity].
    f_equal. f_equal. lia.
Qed.

Lemma vigenere_passes_commute_witness :
  exists a b c,
    text_ret (vigenere true (fun _ _ => 0)
                (Some (chars "Attack at dawn")) (Some (chars "lemon"))) = Ptr a
    /\ text_ret (vigenere true (fun _ _ => 0) (Some a) (Some (chars "key")))
       = Ptr c
    /\ text_ret (vigenere true (fun _ _ => 0)
                   (Some (chars "Attack at dawn")) (Some (chars "key"))) = Ptr b
    /\ text_ret (vigenere true (fun _ _ => 0) (Some b) (Some (chars "lemon")))
       = Ptr c.
Proof.
  assert (N1 : chars "lemon" <> []) by discriminate.
  assert (N2 : chars "key" <> []) by discriminate.
  exact (vigenere_passes_commute true (fun _ _ => 0)
           (chars "Attack at dawn") (chars "lemon") (chars "key")
           eq_refl eq_refl eq_refl N1 eq_refl eq_refl N2).
Defined.

(** The key that undoes a key: every letter replaced by the letter whose
    offset completes it to 26. *)
Definition complement_key (k : list Z) : list Z :=
  map (fun c => lowercase_lower + (26 - (c - lowercase_lower)) mod 26) k.

Lemma complement_key_canonical (k : list Z) :
  canonical (complement_key k) = true.
Proof.
  unfold canonical, complement_key. apply forallb_forall. intros x Hx.
  apply in_map_iff in Hx. destruct Hx as (c & <- & _).
  pose proof (Z.mod_pos_bound (26 - (c - lowercase_lower)) 26 ltac:(lia)).
  apply isLowercase_spec. unfold lowercase_lower in *. lia.
Qed.

Lemma complement_key_cstring (k : list Z) :
  cstring k = true -> cstring (complement_key k) = true.
Proof.
  intros W. apply cstring_intro.
  - intros j Hj.
    pose proof (complement_key_canonical k) as C.
    pose proof (canonical_nth _ j C Hj). lia.
  - unfold complement_key. rewrite length_map. unfold cstring in W.
    apply andb_true_iff in W. destruct W as [_ W]. now apply Z.leb_le in W.
Qed.

Lemma complement_key_offset (k : list Z) (j : nat) :
  canonical k = true -> k <> [] ->
  (key_offset k j + key_offset (complement_key k) j) mod 26 = 0.
Proof.
  intros C N. unfold key_offset, complement_key. rewrite length_map.
  assert (B : (Z.to_nat (Z.of_nat j mod Z.of_nat (List.length k))
               < List.length k)%nat).
  { assert (0 < Z.of_nat (List.length k))
      by (destruct k; [contradiction | simpl; lia]).
    pose proof (Z.mod_pos_bound (Z.of_nat j) (Z.of_nat (List.length k))
                  ltac:(lia)). lia. }
  set (f := fun c : Z => _).
  rewrite (nth_indep (map f k) 0 (f 0)) by now rewrite length_map.
  rewrite map_nth. subst f. cbv beta.
  set (c := nth _ k 0).
  replace (c - lowercase_lower
           + (lowercase_lower + (26 - (c - lowercase_lower)) mod 26
              - lowercase_lower))
    with ((c - lowercase_lower) + (26 - (c - lowercase_lower)) mod 26) by lia.
  rewrite Zplus_mod_idemp_r.
  replace (c - lowercase_lower + (26 - (c - lowercase_lower))) with (1 * 26)
    by lia.
  apply Z.mod_mul. lia.
Qed.



(** * What [correctKey] hands to [vigenere] *)

Lemma normalize_under_cstring (L : libc) (n : nat) (i : Z) (s : list Z) :
  cstring s = true -> cstring (normalize_under L n i s) = true.
Proof.
  intros W. apply cstring_intro.
  - intros j Hj.
    pose proof (canonical_nth _ j (normalize_under_canonical L n i s) Hj). lia.
  - pose proof (normalize_under_length L n i s).
    unfold cstring in W. apply andb_true_iff in W. destruct W as [_ W].
    apply Z.leb_le in W. lia.
Qed.

Lemma canonical_letters (k : list Z) :
  canonical k = true -> forallb inBounds k = true /\ map toLower k = k.
Proof.
  unfold canonical. induction k as [| x k IH]; simpl; [auto |].
  intros C. apply andb_true_iff in C. destruct C as [Lx C].
  destruct (IH C) as [A M].
  pose proof Lx as Lx'. apply isLowercase_spec in Lx'.
  rewrite (proj2 (inBounds_spec x) (or_introl Lx')), A, M.
  split; [reflexivity |]. f_equal. unfold toLower.
  destruct (isUppercase x) eqn:U; [| reflexivity].
  apply isUppercase_spec in U. lia.
Qed.

Lemma normalize_under_fixed (L : libc) (n : nat) (i : Z) (k : list Z) :
  canonical k = true -> (List.length k <= n)%nat ->
  normalize_under L n i k = k.
Proof.
  intros C Hn. destruct (canonical_letters k C) as [A M].
  now rewrite normalize_under_letters, M.
Qed.

(** X8.  Whatever the library makes of the overlapping copy, [correctKey]
    hands back a canonical key: a well-formed C string of lowercase
    letters, no longer than the raw key, each of them the lowercase form
    of a letter of the raw key.  A raw key without a letter gives the
    empty key, and a raw key made of letters comes back whole, folded to
    lowercase. *)
Theorem correctKey_gives_canonical_key (L : libc) (char_signed : bool)
    (around : Z -> Z) (rawKey : list Z) (W : cstring rawKey = true) :
  exists key,
    key_ret (correctKey L char_signed around (Some rawKey)) = Ptr key
    /\ canonical key = true
    /\ cstring key = true
    /\ (List.length key <= List.length rawKey)%nat
    /\ (forall x, In x key ->
          exists c, In c rawKey /\ inBounds c = true /\ x = toLower c)
    /\ ((forall c, In c rawKey -> inBounds c = false) -> key = [])
    /\ (forallb inBounds rawKey = true -> key = map toLower rawKey).
Proof.
  destruct (correctKey_run L char_signed around rawKey W)
    as (m' & log & -> & _).
  eexists. cbn [key_ret]. split; [reflexivity |].
  split; [apply normalize_under_canonical |].
  split; [now apply normalize_under_cstring |].
  split; [apply normalize_under_length |].
  split; [apply normalize_under_chars |].
  split; [apply normalize_under_no_letter |].
  intros A. apply normalize_under_letters; [exact A | lia].
Qed.

Lemma correctKey_gives_canonical_key_witness :
  exists key,
    key_ret (correctKey two_window_libc true (fun _ => 0)
               (Some (chars "12345"))) = Ptr key
    /\ key = [].
Proof.
  destruct (correctKey_gives_canonical_key two_window_libc true (fun _ => 0)
              (chars "12345") eq_refl) as (key & E & _ & _ & _ & _ & N & _).
  exists key. split; [exact E |]. apply N.
  intros c Hc. simpl in Hc.
  repeat (destruct Hc as [<- | Hc]; [reflexivity |]). contradiction.
Defined.

(** X9.  A key that went through [correctKey] goes through it again
    unchanged, and this second scan never leaves the buffer. *)
Theorem correctKey_fixed_point (L : libc) (char_signed : bool)
    (around around' : Z -> Z) (rawKey : list Z) (W : cstring rawKey = true) :
  exists key,
    key_ret (correctKey L char_signed around (Some rawKey)) = Ptr key
    /\ key_ret (correctKey L char_signed around' (Some key)) = Ptr key
    /\ forallb in_buffer
         (key_accesses (correctKey L char_signed around' (Some key))) = true.
Proof.
  destruct (correctKey_run L char_signed around rawKey W)
    as (m' & log & -> & _).
  set (key := normalize_under L (List.length rawKey) 0 rawKey).
  exists key. cbn [key_ret].
  assert (W' : cstring key = true) by now apply normalize_under_cstring.
  assert (C : canonical key = true) by apply normalize_under_canonical.
  split; [reflexivity | split].
  - destruct (correctKey_run L char_signed around' key W')
      as (m2 & log2 & -> & _).
    cbn [key_ret]. now rewrite normalize_under_fixed.
  - apply correctKey_accesses_in_buffer; [exact W' |].
    destruct key as [| c k'] eqn:E; [exact I |].
    apply inBounds_spec. left.
    apply (canonical_nth (c :: k') 0 C). simpl. lia.
Qed.

Lemma correctKey_fixed_point_witness :
  key_ret (correctKey two_window_libc true (fun _ => 65)
             (Some (chars "psswdd")))
  = Ptr (chars "psswdd").
Proof.
  destruct (correctKey_fixed_point two_window_libc true (fun _ => 0)
              (fun _ => 65) (chars "P@ss-w0rd!") eq_refl) as (key & E & F & _).
  assert (Ek : key = chars "psswdd").
  { assert (V : key_ret (correctKey two_window_libc true (fun _ => 0)
                           (Some (chars "P@ss-w0rd!")))
                = Ptr (chars "psswdd")) by (vm_compute; reflexivity).
    rewrite V in E. now injection E as <-. }
  rewrite Ek in F. exact F.
Defined.

(** X10.  The scan of [correctKey] stays inside the buffer exactly when
    the raw key is empty or starts with a letter; a leading character of
    another kind sends the test for an uppercase letter to index -1. *)
Theorem correctKey_safe_iff (L : libc) (char_signed : bool)
    (around : Z -> Z) (rawKey : list Z) (W : cstring rawKey = true) :
  forallb in_buffer
    (key_accesses (correctKey L char_signed around (Some rawKey))) = true
  <-> match rawKey with [] => True | c :: _ => inBounds c = true end.
Proof.
  split.
  - intros S. destruct rawKey as [| c rest]; [exact I |].
    destruct (inBounds c) eqn:Lc; [reflexivity | exfalso].
    pose proof (correctKey_reads_before_buffer L char_signed around c rest
                  Lc W) as Hin.
    rewrite forallb_forall in S. specialize (S _ Hin). discriminate.
  - now apply correctKey_accesses_in_buffer.
Qed.

Lemma correctKey_safe_iff_witness :
  forallb in_buffer
    (key_accesses (correctKey two_window_libc true (fun _ => 0)
                     (Some (chars "P@ss-w0rd!"))))
  = true.
Proof.
  apply (correctKey_safe_iff two_window_libc true (fun _ => 0)
           (chars "P@ss-w0rd!") eq_refl).
  reflexivity.
Defined.

(** What [vigenere] does with a canonical key that is not empty. *)
Lemma vigenere_under_canonical_key (sg : bool) (beyond : Z -> Z -> Z)
    (key p : list Z) :
  cstring p = true -> cstring key = true ->
  canonical key = true -> key <> [] ->
  text_ret (vigenere sg beyond (Some p) (Some key))
  = Ptr (encipher_spec sg key p)
  /\ (forall j, (j < List.length p)%nat ->
        if inBounds (nth j p 0)
        then inBounds (nth j (encipher_spec sg key p) 0) = true
             /\ same_case (nth j p 0) (nth j (encipher_spec sg key p) 0)
                = true
        else nth j (encipher_spec sg key p) 0 = nth j p 0)
  /\ Forall (fun a : access => 0 <= fst a < snd a)
       (key_reads key (text_steps (vigenere sg beyond (Some p) (Some key))))
  /\ text_ret (vigenere sg beyond (Some (encipher_spec sg key p))
                 (Some (complement_key key))) = Ptr p.
Proof.
  intros Wp Wkey Ck Nk.
  assert (Nc : complement_key key <> []).
  { destruct key; [contradiction | discriminate]. }
  rewrite !vigenere_run
    by (assumption || apply encipher_spec_cstring
        || apply complement_key_cstring; assumption).
  cbn [text_ret text_steps].
  split; [reflexivity |]. split; [| split].
  - intros j Hj. rewrite nth_encipher_spec by exact Hj. unfold cipher_at.
    cbv zeta. destruct (inBounds (nth j p 0)) eqn:Lj; [| reflexivity].
    destruct (rot_same_case sg (nth j p 0) _ Lj
                (key_char_letter key j Ck Nk)) as (B & U & Lo & _).
    split; [exact B |]. unfold same_case. rewrite U, Lo.
    now rewrite !eqb_reflx.
  - unfold key_reads. apply Forall_forall. intros a Ha.
    apply in_map_iff in Ha. destruct Ha as (s & <- & Hs).
    apply filter_In in Hs. destruct Hs as [Hs _].
    apply in_map_iff in Hs. destruct Hs as (j & <- & _).
    cbn [fst snd cursor step_at].
    apply Z.mod_pos_bound. destruct key; [contradiction | simpl; lia].
  - f_equal. apply (nth_ext _ _ 0 0).
    + now rewrite !length_encipher_spec.
    + intros j Hj. rewrite !length_encipher_spec in Hj.
      rewrite double_pass
        by (assumption || apply complement_key_canonical).
      destruct (inBounds (nth j p 0)) eqn:Lj; [| reflexivity].
      destruct (letter_offset _ Lj) as [O _].
      rewrite <- Z.add_assoc, <- Zplus_mod_idemp_r.
      rewrite (complement_key_offset key j Ck Nk), Z.add_0_r.
      rewrite Z.mod_small by lia. lia.
Qed.

(** The key of a raw key that starts with a letter is not empty,
    whatever the library: the first character is kept before anything is
    copied. *)
Lemma correctKey_leading_letter (L : libc) (sg : bool) (around : Z -> Z)
    (rawKey : list Z) :
  cstring rawKey = true ->
  match rawKey with c :: _ => inBounds c | [] => false end = true ->
  exists key,
    key_ret (correctKey L sg around (Some rawKey)) = Ptr key
    /\ canonical key = true /\ cstring key = true /\ key <> [].
Proof.
  intros W H.
  destruct (correctKey_run L sg around rawKey W) as (m' & log & -> & _).
  eexists. cbn [key_ret]. split; [reflexivity |].
  split; [apply normalize_under_canonical |].
  split; [now apply normalize_under_cstring |].
  destruct rawKey as [| c rest]; [discriminate |].
  cbn [List.length]. rewrite normalize_under_head by exact H. discriminate.
Qed.

(** X11.  The two calls of [main] fit together.  When the raw key starts
    with a letter, the key [correctKey] returns -- whatever the library
    makes of the overlapping copy -- is one [vigenere] can cycle through
    without leaving it: the pass keeps the length of the text and the
    case of every letter, touches nothing else, and a further pass under
    the complement of that key gives the text back. *)
Theorem correctKey_then_vigenere (L : libc) (char_signed : bool)
    (around : Z -> Z) (beyond : Z -> Z -> Z) (rawKey p : list Z)
    (Wk : cstring rawKey = true) (Wp : cstring p = true)
    (Hletter : match rawKey with c :: _ => inBounds c | [] => false end
               = true) :
  exists key out,
    key_ret (correctKey L char_signed around (Some rawKey)) = Ptr key
    /\ canonical key = true /\ key <> []
    /\ text_ret (vigenere char_signed beyond (Some p) (Some key)) = Ptr out
    /\ List.length out = List.length p
    /\ (forall j, (j < List.length p)%nat ->
          if inBounds (nth j p 0)
          then inBounds (nth j out 0) = true
               /\ same_case (nth j p 0) (nth j out 0) = true
          else nth j out 0 = nth j p 0)
    /\ Forall (fun a : access => 0 <= fst a < snd a)
         (key_reads key
            (text_steps (vigenere char_signed beyond (Some p) (Some key))))
    /\ text_ret (vigenere char_signed beyond (Some out)
                   (Some (complement_key key))) = Ptr p.
Proof.
  destruct (correctKey_leading_letter L char_signed around rawKey Wk Hletter)
    as (key & E & Ck & Wkey & Nk).
  destruct (vigenere_under_canonical_key char_signed beyond key p
              Wp Wkey Ck Nk) as (V & Sh & Rd & Back).
  exists key, (encipher_spec char_signed key p).
  repeat (split; [assumption |]).
  split; [apply length_encipher_spec |].
  repeat (split; [assumption |]). exact Back.
Qed.

Lemma correctKey_then_vigenere_witness :
  exists key out,
    key_ret (correctKey two_window_libc true (fun _ => 0)
               (Some (chars "P@ss-w0rd!")))
    = Ptr key
    /\ text_ret (vigenere true (fun _ _ => 0)
                   (Some (chars "Attack at dawn")) (Some key)) = Ptr out
    /\ List.length out = 14%nat.
Proof.
  destruct (correctKey_then_vigenere two_window_libc true (fun _ => 0)
              (fun _ _ => 0) (chars "P@ss-w0rd!") (chars "Attack at dawn")
              eq_refl eq_refl eq_refl)
    as (key & out & E & _ & _ & V & Hlen & _).
  exists key, out. auto.
Defined.

(** * The signedness of [char] *)

Lemma fold_left_ext_Z {A : Type} (f g : A -> Z -> A) (l : list Z) (a : A) :
  (forall x y, f x y = g x y) -> fold_left f l a = fold_left g l a.
Proof.
  intros E. revert a. induction l as [| y l IH]; intros a; simpl;
    [reflexivity |]. now rewrite E, IH.
Qed.

Lemma correctKey_body_signedness (L : libc) (i len : Z) (m : mem) :
  correctKey_body L true i len m = correctKey_body L false i len m.
Proof.
  unfold correctKey_body.
  destruct (negb (inBounds (load m i)));
    match goal with
    | |- context [isUppercase ?x] => destruct (isUppercase x) eqn:U
    end; try reflexivity;
    apply isUppercase_spec in U;
    rewrite !to_char_ascii by (unfold range_distance; lia); reflexivity.
Qed.

Lemma correctKey_loop_signedness (L : libc) (fuel : nat) :
  forall i len m,
    correctKey_loop L true fuel i len m = correctKey_loop L false fuel i len m.
Proof.
  induction fuel as [| fuel IH]; intros i len m; [reflexivity |].
  rewrite !(correctKey_loop_eq _ _ (S fuel)).
  destruct (i <? len); [| reflexivity].
  rewrite correctKey_body_signedness.
  destruct (correctKey_body L false i len m) as [[[i1 len1] m1] log].
  now rewrite IH.
Qed.

(** X12.  No conversion of an [int] to a [char] in [correctKey],
    [calculateRotShift] or [vigenere] ever changes a value: run on the
    same [char] values, the two functions give the same run under the
    signed and under the unsigned conversion.  (Which [char] value a byte
    above 127 of the input has is settled where the input is read, not
    here.) *)
Theorem char_conversions_change_nothing (L : libc) (around : Z -> Z)
    (beyond : Z -> Z -> Z) (key plainText : option (list Z)) :
  correctKey L true around key = correctKey L false around key
  /\ vigenere true beyond plainText key = vigenere false beyond plainText key.
Proof.
  split.
  - destruct key as [s |]; [| reflexivity].
    unfold correctKey. cbv zeta. now rewrite correctKey_loop_signedness.
  - destruct plainText as [p |], key as [k |]; try reflexivity.
    unfold vigenere, vigenere_loop. cbv zeta.
    rewrite (fold_left_ext_Z (vigenere_body true beyond k _)
               (vigenere_body false beyond k
                  (int_of_size_t (Z.of_nat (List.length k))))); [reflexivity |].
    intros [[keyi text] steps] i. unfold vigenere_body.
    destruct (inBounds (nth (Z.to_nat i) text 0)) eqn:Lc; [| reflexivity].
    destruct (rot_any_key_range true (nth (Z.to_nat i) text 0)
                (load {| str := k; outside := beyond i |}
                   (if keyi =? int_of_size_t (Z.of_nat (List.length k))
                    then 0 else keyi)) Lc) as [-> _].
    destruct (rot_any_key_range false (nth (Z.to_nat i) text 0)
                (load {| str := k; outside := beyond i |}
                   (if keyi =? int_of_size_t (Z.of_nat (List.length k))
                    then 0 else keyi)) Lc) as [-> _].
    reflexivity.
Qed.


(** * getInput

    The standard input is the list of the bytes still to be read, each an
    [int] between 0 and 255 as [getchar] returns them; once the list is
    exhausted [getchar] returns [EOF].  [malloc] and [realloc] are taken
    to succeed; [realloc] keeps the bytes stored so far. *)

Definition EOF : Z := -1.

Definition getchar (stdin : list Z) : Z * list Z :=
  match stdin with
  | [] => (EOF, [])
  | b :: rest => (b, rest)
  end.

(** What [getInput] hands back: NULL; the buffer, given by the bytes
    stored in front of its terminator; or nothing, because [length += 3]
    left the range of [int], or because the loop of the model ran out of
    fuel. *)
Inductive line_pointer : Type :=
| LineNull
| LineBuffer (buf : list Z)
| LineIntOverflow
| LineOutOfFuel.

Inductive input_diagnostic : Type :=
| GetInputInputNull
| GetInputPromptNull.

Record input_run : Type :=
  { in_ret : line_pointer;
    in_stdin : list Z;
    in_prompt : list Z;
    in_printed : list input_diagnostic;
    in_stores : list access }.

Inductive input_loop_result : Type :=
| LoopBreak (i length : Z) (input stdin : list Z) (stores : list access)
| LoopIntOverflow
| LoopOutOfFuel.

Section GetInput.
Variable char_signed : bool.

(** The [while (true)] loop.  [input] holds the [i] bytes stored so far,
    [length] is the size of the allocation, and every store is recorded
    with the size of the allocation at that moment. *)
Fixpoint getInput_loop (fuel : nat) (i length : Z) (input stdin : list Z)
    (stores : list access) : input_loop_result :=
  match fuel with
  | O => LoopOutOfFuel
  | S fuel' =>
      if (i =? length) && (INT_MAX <? length + 3) then LoopIntOverflow
      else
        let length := if i =? length then length + 3 else length in
        let '(c, stdin) := getchar stdin in
        if c =? 10 then LoopBreak i length input stdin stores
        else
          getInput_loop fuel' (i + 1) length
            (input ++ [to_char char_signed c]) stdin
            (stores ++ [(i, length)])
  end.

Definition getInput (fuel : nat) (input prompt : option (list Z))
    (stdin : list Z) : input_run :=
  match input, prompt with
  | Some _, Some pr =>
      match getInput_loop fuel 0 3 [] stdin [] with
      | LoopBreak i length buf stdin' stores =>
          (* input = realloc(input, i + 1); input[i] = '\0'; *)
          {| in_ret := LineBuffer buf; in_stdin := stdin';
             in_prompt := pr; in_printed := [];
             in_stores := stores ++ [(i, i + 1)] |}
      | LoopIntOverflow =>
          {| in_ret := LineIntOverflow; in_stdin := []; in_prompt := pr;
             in_printed := []; in_stores := [] |}
      | LoopOutOfFuel =>
          {| in_ret := LineOutOfFuel; in_stdin := []; in_prompt := pr;
             in_printed := []; in_stores := [] |}
      end
  | _, _ =>
      {| in_ret := LineNull; in_stdin := stdin; in_prompt := [];
         in_printed :=
           (match input with None => [GetInputInputNull] | Some _ => [] end)
           ++ (match prompt with
               | None => [GetInputPromptNull] | Some _ => [] end);
         in_stores := [] |}
  end.
End GetInput.

Lemma getInput_loop_eq (sg : bool) (fuel : nat) (i len : Z)
    (input stdin : list Z) (stores : list access) :
  getInput_loop sg (S fuel) i len input stdin stores
  = if (i =? len) && (INT_MAX <? len + 3) then LoopIntOverflow
    else
      let len1 := if i =? len then len + 3 else len in
      if fst (getchar stdin) =? 10
      then LoopBreak i len1 input (snd (getchar stdin)) stores
      else getInput_loop sg fuel (i + 1) len1
             (input ++ [to_char sg (fst (getchar stdin))])
             (snd (getchar stdin)) (stores ++ [(i, len1)]).
Proof.
  cbn [getInput_loop]. destruct (getchar stdin) as [c s]. reflexivity.
Qed.

(** The loop on a line: the bytes in front of the first newline are
    stored in order, each inside the allocation of the moment; the
    newline is consumed and nothing after it. *)
Lemma getInput_loop_line (sg : bool) (line : list Z) :
  forall (fuel : nat) (i len : Z) (input rest : list Z) (stores : list access),
    ~ In 10 line ->
    (List.length line < fuel)%nat ->
    0 <= i <= len ->
    i + Z.of_nat (List.length line) + 3 <= INT_MAX ->
    exists len' stores',
      getInput_loop sg fuel i len input (line ++ 10 :: rest) stores
      = LoopBreak (i + Z.of_nat (List.length line)) len'
          (input ++ map (to_char sg) line) rest (stores ++ stores')
      /\ i + Z.of_nat (List.length line) < len'
      /\ Forall (fun a : access => 0 <= fst a < snd a) stores'.
Proof.
  induction line as [| b line IH];
    intros fuel i len input rest stores N F Hi Hmax;
    (destruct fuel as [| fuel]; [simpl in F; lia |]);
    rewrite getInput_loop_eq;
    (replace ((i =? len) && (INT_MAX <? len + 3)) with false
      by (symmetry; apply andb_false_iff;
          destruct (Z.eq_dec i len) as [-> | Ne];
          [right; apply Z.ltb_ge; cbn [List.length] in Hmax; lia
          | left; now apply Z.eqb_neq]));
    cbv zeta; cbn [app getchar fst snd].
  - rewrite Z.eqb_refl. exists (if i =? len then len + 3 else len), [].
    cbn [List.length map Z.of_nat]. rewrite !app_nil_r, Z.add_0_r.
    split; [reflexivity | split; [| constructor]].
    destruct (i =? len) eqn:T; [apply Z.eqb_eq in T | apply Z.eqb_neq in T];
      lia.
  - assert (Nb : b <> 10) by (intros ->; apply N; now left).
    assert (N' : ~ In 10 line) by (intros H; apply N; now right).
    apply Z.eqb_neq in Nb. rewrite Nb.
    set (len1 := if i =? len then len + 3 else len).
    assert (Hlen1 : i < len1).
    { subst len1.
      destruct (i =? len) eqn:T; [apply Z.eqb_eq in T | apply Z.eqb_neq in T];
        lia. }
    cbn [List.length] in *.
    destruct (IH fuel (i + 1) len1 (input ++ [to_char sg b]) rest
                (stores ++ [(i, len1)]) N' ltac:(lia) ltac:(lia) ltac:(lia))
      as (len' & stores' & E & Hlt & S').
    exists len', ((i, len1) :: stores'). rewrite E.
    cbn [map]. rewrite <- !app_assoc. cbn [app].
    replace (i + 1 + Z.of_nat (List.length line))
      with (i + Z.of_nat (S (List.length line))) by lia.
    split; [reflexivity | split; [lia |]].
    constructor; [cbn [fst snd]; lia | exact S'].
Qed.

(** The loop on an input without a newline never breaks: [getchar]
    returns [EOF] for ever after the last byte and [EOF] is stored like
    any byte. *)
Lemma getInput_loop_no_newline (sg : bool) (fuel : nat) :
  forall (i len : Z) (input stdin : list Z) (stores : list access),
    ~ In 10 stdin ->
    getInput_loop sg fuel i len input stdin stores = LoopOutOfFuel
    \/ getInput_loop sg fuel i len input stdin stores = LoopIntOverflow.
Proof.
  induction fuel as [| fuel IH]; intros i len input stdin stores N;
    [now left |].
  rewrite getInput_loop_eq.
  destruct ((i =? len) && (INT_MAX <? len + 3)); [now right |].
  cbv zeta.
  assert (Hc : (fst (getchar stdin) =? 10) = false).
  { apply Z.eqb_neq. destruct stdin as [| b rest]; cbn [getchar fst].
    - unfold EOF. lia.
    - intros ->. apply N. now left. }
  rewrite Hc. apply IH.
  destruct stdin as [| b rest]; cbn [getchar snd]; [exact N |].
  intros H. apply N. now right.
Qed.

(** The run of [getInput] on an input that holds a newline. *)
Lemma getInput_line (sg : bool) (fuel : nat)
    (input prompt line rest : list Z) :
  ~ In 10 line ->
  (List.length line < fuel)%nat ->
  Z.of_nat (List.length line) + 3 <= INT_MAX ->
  exists stores,
    getInput sg fuel (Some input) (Some prompt) (line ++ 10 :: rest)
    = {| in_ret := LineBuffer (map (to_char sg) line);
         in_stdin := rest; in_prompt := prompt; in_printed := [];
         in_stores := stores |}
    /\ Forall (fun a : access => 0 <= fst a < snd a) stores.
Proof.
  intros Hline Hfuel Hmax. unfold getInput.
  destruct (getInput_loop_line sg line fuel 0 3 [] rest []
              Hline Hfuel ltac:(lia) ltac:(lia))
    as (len' & stores' & -> & Hlt & S').
  eexists. split; [reflexivity |]. cbn [app].
  apply Forall_app. split; [exact S' |].
  constructor; [cbn [fst snd]; lia | constructor].
Qed.



(** X14.  [getInput] hands back a buffer through a newline only.  On an
    input that ends without one -- the empty input included -- it gives
    no buffer: it returns NULL when one of its arguments is NULL, and
    with both arguments present it never returns, however long it runs:
    [EOF] is not tested, the loop goes on storing it and growing the
    buffer (until [length] leaves the range of [int]). *)
Theorem getInput_needs_newline (char_signed : bool) (fuel : nat)
    (input prompt : option (list Z)) (stdin : list Z)
    (Hstdin : ~ In 10 stdin) :
  let r := getInput char_signed fuel input prompt stdin in
  (forall buf, in_ret r <> LineBuffer buf)
  /\ (in_ret r = LineNull <-> (input = None \/ prompt = None))
  /\ (input <> None -> prompt <> None ->
      in_ret r = LineOutOfFuel \/ in_ret r = LineIntOverflow).
Proof.
  cbv zeta.
  destruct input as [i0 |], prompt as [pr |];
    try (cbn [getInput in_ret];
         split; [discriminate | split; [tauto | intros; congruence]]).
  unfold getInput.
  destruct (getInput_loop_no_newline char_signed fuel 0 3 [] stdin [] Hstdin)
    as [-> | ->]; cbn [in_ret];
    (split; [discriminate |]); (split; [| auto]);
    (split; [discriminate | intros [? | ?]; discriminate]).
Qed.

Lemma getInput_needs_newline_witness :
  in_ret (getInput true 1000 (Some []) (Some (chars "Password: "))
            (chars "lemon"))
  = LineOutOfFuel.
Proof.
  assert (N : ~ In 10 (chars "lemon")).
  { intros H. simpl in H.
    repeat (destruct H as [H | H]; [discriminate |]). contradiction. }
  destruct (getInput_needs_newline true 1000 (Some []) (Some (chars "Password: "))
              (chars "lemon") N) as (_ & _ & S).
  destruct (S ltac:(discriminate) ltac:(discriminate)) as [E | E];
    [exact E |].
  exfalso. revert E. vm_compute. discriminate.
Defined.


(** * main

    The standard output is the list of the bytes written.  The two
    pointers [key] and [input] are passed to [getInput] before anything
    was assigned to them: what they hold at that moment is a parameter
    ([key0], [input0]); [getInput] only tests it against NULL.  The fuel
    bounds the two reading loops, and [L] is the C library that
    [correctKey] calls. *)

(** A [char] written to the output, as a byte. *)
Definition byte_of_char (c : Z) : Z := c mod 256.

(** The C string a buffer holds: its bytes up to the first terminator. *)
Fixpoint until_nul (buf : list Z) : list Z :=
  match buf with
  | [] => []
  | c :: buf' => if c =? 0 then [] else c :: until_nul buf'
  end.

Definition render_input_diagnostic (d : input_diagnostic) : list Z :=
  match d with
  | GetInputInputNull => chars "[getInput] input was NULL!" ++ [10]
  | GetInputPromptNull => chars "[getInput] prompt was NULL!" ++ [10]
  end.

Definition render_diagnostic (d : diagnostic) : list Z :=
  match d with
  | CorrectKeyKeyNull => chars "[correctKey] key was NULL!" ++ [10]
  | VigenerePlainTextNull => chars "[vigenere] plainText was NULL!" ++ [10]
  | VigenereKeyNull => chars "[vigenere] key was NULL!" ++ [10]
  end.

(** What [getInput] wrote. *)
Definition input_output (r : input_run) : list Z :=
  map byte_of_char (in_prompt r)
  ++ List.concat (map render_input_diagnostic (in_printed r)).

(** How [main] ends: it returns; or it passes NULL to the [%s] of
    [printf]; or a callee does not come back. *)
Inductive main_end : Type :=
| MainReturn (code : Z)
| MainPrintfNull
| MainStuck.

Record main_run : Type :=
  { main_ret : main_end;
    main_stdout : list Z;
    main_stdin : list Z }.

(** The pointer [getInput] returned, as the next callee sees it. *)
Definition line_string (l : line_pointer) : option (option (list Z)) :=
  match l with
  | LineNull => Some None
  | LineBuffer buf => Some (Some (until_nul buf))
  | LineIntOverflow | LineOutOfFuel => None
  end.

Definition main (L : libc) (char_signed : bool)
    (key0 input0 : option (list Z))
    (around : Z -> Z) (beyond : Z -> Z -> Z) (fuel : nat) (stdin : list Z)
  : main_run :=
  (* key = getInput(key, "Password: "); *)
  let r1 := getInput char_signed fuel key0 (Some (chars "Password: ")) stdin in
  let out1 := input_output r1 in
  match line_string (in_ret r1) with
  | None => {| main_ret := MainStuck; main_stdout := out1;
               main_stdin := in_stdin r1 |}
  | Some key =>
      (* input = getInput(input, "Plain text: "); *)
      let r2 := getInput char_signed fuel input0
                  (Some (chars "Plain text: ")) (in_stdin r1) in
      let out2 := out1 ++ input_output r2 in
      match line_string (in_ret r2) with
      | None => {| main_ret := MainStuck; main_stdout := out2;
                   main_stdin := in_stdin r2 |}
      | Some input =>
          (* key = correctKey(key); *)
          let r3 := correctKey L char_signed around key in
          let out3 := out2 ++ List.concat (map render_diagnostic (key_printed r3)) in
          match key_ret r3 with
          | OutOfFuel => {| main_ret := MainStuck; main_stdout := out3;
                            main_stdin := in_stdin r2 |}
          | Null | Ptr _ =>
              let key := match key_ret r3 with
                         | Ptr k => Some k
                         | _ => None
                         end in
              (* printf("\n%s\n", vigenere(input, key)); return 0; *)
              let r4 := vigenere char_signed beyond input key in
              let out4 :=
                out3 ++ List.concat (map render_diagnostic (text_printed r4)) in
              match text_ret r4 with
              | Ptr text =>
                  {| main_ret := MainReturn 0;
                     main_stdout :=
                       out4 ++ [10] ++ map byte_of_char (until_nul text)
                       ++ [10];
                     main_stdin := in_stdin r2 |}
              | Null => {| main_ret := MainPrintfNull; main_stdout := out4;
                           main_stdin := in_stdin r2 |}
              | OutOfFuel => {| main_ret := MainStuck; main_stdout := out4;
                                main_stdin := in_stdin r2 |}
              end
          end
      end
  end.

(** A line of 7-bit text: no terminator, no newline, no byte above 127. *)
Definition ascii_line (l : list Z) : bool :=
  forallb (fun b => (1 <=? b) && (b <=? 127) && negb (b =? 10)) l.

Lemma ascii_line_In (l : list Z) (b : Z) :
  ascii_line l = true -> In b l -> 1 <= b <= 127 /\ b <> 10.
Proof.
  unfold ascii_line. intros A Hb. rewrite forallb_forall in A.
  specialize (A b Hb). apply andb_true_iff in A. destruct A as [A N].
  apply andb_true_iff in A. destruct A as [A1 A2].
  apply negb_true_iff, Z.eqb_neq in N. lia.
Qed.

Lemma ascii_line_to_char (sg : bool) (l : list Z) :
  ascii_line l = true -> map (to_char sg) l = l.
Proof.
  intros A. rewrite <- (map_id l) at 2. apply map_ext_in. intros b Hb.
  destruct (ascii_line_In l b A Hb). apply to_char_ascii. lia.
Qed.

Lemma ascii_line_cstring (l : list Z) :
  ascii_line l = true -> Z.of_nat (List.length l) <= INT_MAX ->
  cstring l = true.
Proof.
  intros A M. apply cstring_intro; [| exact M].
  intros j Hj. destruct (ascii_line_In l _ A (nth_In l 0 Hj)). lia.
Qed.

Lemma until_nul_cstring (s : list Z) : cstring s = true -> until_nul s = s.
Proof.
  unfold cstring. intros W. apply andb_true_iff in W. destruct W as [W _].
  induction s as [| c s IH]; [reflexivity |].
  simpl in W. apply andb_true_iff in W. destruct W as [Nc W].
  apply negb_true_iff in Nc. simpl. rewrite Nc. now rewrite (IH W).
Qed.

Lemma map_byte_of_char_id (l : list Z) :
  (forall c, In c l -> 0 <= c < 256) -> map byte_of_char l = l.
Proof.
  intros H. rewrite <- (map_id l) at 2. apply map_ext_in. intros c Hc.
  unfold byte_of_char. apply Z.mod_small, H, Hc.
Qed.

Lemma encipher_spec_bytes (sg : bool) (k p : list Z) :
  (forall c, In c p -> 1 <= c <= 127) ->
  forall c, In c (encipher_spec sg k p) -> 0 <= c < 256.
Proof.
  intros Hp c Hc. unfold encipher_spec in Hc.
  apply in_map_iff in Hc. destruct Hc as (j & <- & Hj).
  apply in_seq in Hj. unfold cipher_at. cbv zeta.
  destruct (inBounds (nth j p 0)) eqn:L.
  - destruct (rot_any_key_range sg (nth j p 0)
                (nth (Z.to_nat (Z.of_nat j mod Z.of_nat (List.length k))) k 0)
                L) as [_ R].
    destruct (letter_offset _ L) as [_ F]. lia.
  - assert (Hj' : (j < List.length p)%nat) by lia.
    specialize (Hp (nth j p 0) (nth_In p 0 Hj')). lia.
Qed.

(** X15.  The whole program on two lines of 7-bit text, the first
    starting with a letter, when the two pointers are not NULL at the
    moment [getInput] tests them: [main] prints the two prompts, a
    newline, the second line enciphered under the key [correctKey] makes
    of the first (a canonical key that is not empty, whatever the library
    makes of the overlapping copy), and a newline; it returns 0 and
    leaves what follows the second line unread. *)
Theorem main_enciphers_second_line (L : libc) (char_signed : bool)
    (key0 input0 : list Z) (around : Z -> Z) (beyond : Z -> Z -> Z)
    (fuel : nat) (password text rest : list Z)
    (Apw : ascii_line password = true) (Atx : ascii_line text = true)
    (Mpw : Z.of_nat (List.length password) + 3 <= INT_MAX)
    (Mtx : Z.of_nat (List.length text) + 3 <= INT_MAX)
    (Fpw : (List.length password < fuel)%nat)
    (Ftx : (List.length text < fuel)%nat)
    (Hletter : match password with c :: _ => inBounds c | [] => false end
               = true) :
  exists key,
    key_ret (correctKey L char_signed around (Some password)) = Ptr key
    /\ canonical key = true /\ key <> []
    /\ main L char_signed (Some key0) (Some input0) around beyond fuel
         (password ++ 10 :: text ++ 10 :: rest)
       = {| main_ret := MainReturn 0;
            main_stdout :=
              chars "Password: " ++ chars "Plain text: " ++ [10]
              ++ encipher_spec char_signed key text ++ [10];
            main_stdin := rest |}.
Proof.
  assert (Npw : ~ In 10 password)
    by (intros H; now destruct (ascii_line_In _ _ Apw H)).
  assert (Ntx : ~ In 10 text)
    by (intros H; now destruct (ascii_line_In _ _ Atx H)).
  assert (Wpw : cstring password = true)
    by (apply ascii_line_cstring; [exact Apw | lia]).
  assert (Wtx : cstring text = true)
    by (apply ascii_line_cstring; [exact Atx | lia]).
  destruct (correctKey_leading_letter L char_signed around password
              Wpw Hletter) as (key & Ek & Ck & Wkey & Nk).
  exists key. repeat (split; [assumption |]).
  unfold main. cbv zeta.
  destruct (getInput_line char_signed fuel key0 (chars "Password: ")
              password (text ++ 10 :: rest) Npw Fpw Mpw) as (s1 & -> & _).
  cbn [in_ret in_stdin line_string].
  destruct (getInput_line char_signed fuel input0 (chars "Plain text: ")
              text rest Ntx Ftx Mtx) as (s2 & -> & _).
  cbn [in_ret in_stdin line_string].
  rewrite !ascii_line_to_char, !until_nul_cstring by assumption.
  assert (Pk : key_printed (correctKey L char_signed around (Some password))
               = []).
  { destruct (correctKey_run L char_signed around password Wpw)
      as (m' & log & -> & _). reflexivity. }
  rewrite Ek, Pk.
  rewrite (vigenere_run char_signed beyond text key Wtx Wkey Nk).
  cbn [text_ret text_printed].
  rewrite until_nul_cstring by now apply encipher_spec_cstring.
  rewrite map_byte_of_char_id.
  - unfold input_output. cbn [in_prompt in_printed map List.concat].
    rewrite !app_nil_r, <- !app_assoc. reflexivity.
  - apply encipher_spec_bytes. intros c Hc.
    now destruct (ascii_line_In _ _ Atx Hc).
Qed.

Lemma main_enciphers_second_line_witness :
  main two_window_libc true (Some []) (Some []) (fun _ => 0) (fun _ _ => 0) 20
    (chars "Le Mon-42" ++ 10 :: chars "Attack at dawn" ++ 10 :: chars "more")
  = {| main_ret := MainReturn 0;
       main_stdout :=
         chars "Password: " ++ chars "Plain text: " ++ [10]
         ++ chars "Lxfopv mh oeib" ++ [10];
       main_stdin := chars "more" |}.
Proof.
  assert (Mpw : Z.of_nat (List.length (chars "Le Mon-42")) + 3 <= INT_MAX)
    by (vm_compute; discriminate).
  assert (Mtx : Z.of_nat (List.length (chars "Attack at dawn")) + 3 <= INT_MAX)
    by (vm_compute; discriminate).
  assert (Fpw : (List.length (chars "Le Mon-42") < 20)%nat)
    by (vm_compute; lia).
  assert (Ftx : (List.length (chars "Attack at dawn") < 20)%nat)
    by (vm_compute; lia).
  destruct (main_enciphers_second_line two_window_libc true [] []
              (fun _ => 0) (fun _ _ => 0) 20%nat
              (chars "Le Mon-42") (chars "Attack at dawn") (chars "more")
              eq_refl eq_refl Mpw Mtx Fpw Ftx eq_refl)
    as (key & Ek & _ & _ & M).
  assert (E : key = chars "lemon").
  { assert (V : key_ret (correctKey two_window_libc true (fun _ => 0)
                           (Some (chars "Le Mon-42")))
                = Ptr (chars "lemon")) by (vm_compute; reflexivity).
    rewrite V in Ek. now injection Ek as <-. }
  rewrite M, E. reflexivity.
Defined.

(** When the loop of [getInput] breaks, it has consumed the input up to
    its first newline and stored what stood in front of it. *)
Lemma getInput_loop_break (sg : bool) (fuel : nat) :
  forall (i len : Z) (input stdin : list Z) (stores : list access)
         (i' len' : Z) (buf stdin' : list Z) (stores' : list access),
    getInput_loop sg fuel i len input stdin stores
    = LoopBreak i' len' buf stdin' stores' ->
    exists line,
      stdin = line ++ 10 :: stdin' /\ ~ In 10 line
      /\ buf = input ++ map (to_char sg) line.
Proof.
  induction fuel as [| fuel IH];
    intros i len input stdin stores i' len' buf stdin' stores' E;
    [discriminate |].
  rewrite getInput_loop_eq in E.
  destruct ((i =? len) && (INT_MAX <? len + 3)); [discriminate |].
  cbv zeta in E.
  destruct stdin as [| b rest]; cbn [getchar fst snd] in E.
  - change (EOF =? 10) with false in E. cbv iota in E.
    apply IH in E. destruct E as (line & E & _).
    destruct line; discriminate.
  - destruct (b =? 10) eqn:T.
    + apply Z.eqb_eq in T. subst b. injection E as _ _ <- <- _.
      exists []. rewrite app_nil_r. repeat split. intros [].
    + apply Z.eqb_neq in T. apply IH in E.
      destruct E as (line & -> & N & ->).
      exists (b :: line). rewrite <- app_assoc. repeat split.
      intros [H | H]; [congruence | contradiction].
Qed.

(** X16.  When the two pointers are not NULL at the moment [getInput]
    tests them, [main] does not come back unless the input holds two
    newlines: with fewer, one of the two calls of [getInput] runs off the
    end of the input and never returns, however much fuel the loops are
    given. *)
Theorem main_needs_two_newlines (L : libc) (char_signed : bool)
    (key0 input0 : list Z) (around : Z -> Z) (beyond : Z -> Z -> Z)
    (fuel : nat) (stdin : list Z)
    (Hstdin : (count_occ Z.eq_dec stdin 10%Z < 2)%nat) :
  main_ret (main L char_signed (Some key0) (Some input0) around beyond fuel
              stdin)
  = MainStuck.
Proof.
  unfold main. cbv zeta. unfold getInput.
  destruct (getInput_loop char_signed fuel 0 3 [] stdin [])
    as [i1 len1 buf1 stdin1 stores1 | |] eqn:E1;
    cbn [in_ret in_stdin line_string]; try reflexivity.
  apply getInput_loop_break in E1. destruct E1 as (line & -> & _ & _).
  assert (N : ~ In 10 stdin1).
  { rewrite count_occ_app in Hstdin. cbn [count_occ] in Hstdin.
    destruct (Z.eq_dec 10 10) as [_ | Ne]; [| congruence].
    apply (count_occ_not_In Z.eq_dec). lia. }
  destruct (getInput_loop_no_newline char_signed fuel 0 3 [] stdin1 [] N)
    as [-> | ->]; reflexivity.
Qed.

Lemma main_needs_two_newlines_witness :
  main_ret (main two_window_libc true (Some []) (Some []) (fun _ => 0)
              (fun _ _ => 0) 500
              (chars "lemon" ++ 10 :: chars "Attack at dawn"))
  = MainStuck.
Proof.
  apply (main_needs_two_newlines two_window_libc true [] [] (fun _ => 0)
           (fun _ _ => 0) 500
           (chars "lemon" ++ 10 :: chars "Attack at dawn")).
  vm_compute. lia.
Defined.



(** * Two more facts on the pass *)

(** X18.  The letter a is the neutral key letter: under a key made of
    the letters a and A only, [vigenere] hands the text back as it
    was. *)
Theorem vigenere_key_of_a_is_neutral (char_signed : bool)
    (beyond : Z -> Z -> Z) (p k : list Z)
    (Wp : cstring p = true) (Wk : cstring k = true) (Nk : k <> [])
    (Ha : forallb (fun c => (c =? 97) || (c =? 65)) k = true) :
  text_ret (vigenere char_signed beyond (Some p) (Some k)) = Ptr p.
Proof.
  rewrite (vigenere_run char_signed beyond p k Wp Wk Nk). cbn [text_ret].
  f_equal. apply (nth_ext _ _ 0 0); [apply length_encipher_spec |].
  intros j Hj. rewrite length_encipher_spec in Hj.
  rewrite nth_encipher_spec by exact Hj. unfold cipher_at. cbv zeta.
  destruct (inBounds (nth j p 0)) eqn:L; [| reflexivity].
  set (kc := nth (Z.to_nat (Z.of_nat j mod Z.of_nat (List.length k))) k 0).
  assert (Hkc : kc = 97 \/ kc = 65).
  { rewrite forallb_forall in Ha.
    assert (Hin : In kc k).
    { apply nth_In.
      assert (0 < Z.of_nat (List.length k))
        by (destruct k; [contradiction | simpl; lia]).
      pose proof (Z.mod_pos_bound (Z.of_nat j) (Z.of_nat (List.length k))
                    ltac:(lia)). lia. }
    specialize (Ha kc Hin). apply orb_true_iff in Ha.
    destruct Ha as [H | H]; apply Z.eqb_eq in H; auto. }
  assert (Lk : inBounds kc = true /\ kc - getFloor kc = 0).
  { destruct Hkc as [-> | ->]; split; reflexivity. }
  destruct Lk as [Lk Ok].
  destruct (rot_letters char_signed (nth j p 0) kc L Lk) as (R & E & _).
  destruct (letter_offset _ L) as [O _].
  rewrite E, R, Ok, Z.add_0_r, Z.mod_small by lia. lia.
Qed.

Lemma vigenere_key_of_a_is_neutral_witness :
  text_ret (vigenere true (fun _ _ => 0)
              (Some (chars "Attack at dawn")) (Some (chars "aAa")))
  = Ptr (chars "Attack at dawn").
Proof.
  assert (Nk : chars "aAa" <> []) by discriminate.
  exact (vigenere_key_of_a_is_neutral true (fun _ _ => 0)
           (chars "Attack at dawn") (chars "aAa") eq_refl eq_refl Nk eq_refl).
Defined.

(** X19.  Whatever the key, the pass makes exactly one turn per character
    of the text, in order, and moves the cursor by one in each, letter
    or not; the cursor of position [j] is [j] modulo the length of the
    key, and [j] itself when the key is empty. *)
Theorem vigenere_one_turn_per_character (char_signed : bool)
    (beyond : Z -> Z -> Z) (p k : list Z)
    (Wp : cstring p = true) (Wk : cstring k = true) :
  let steps := text_steps (vigenere char_signed beyond (Some p) (Some k)) in
  let keylen := Z.of_nat (List.length k) in
  List.length steps = List.length p
  /\ forall j, (j < List.length p)%nat ->
       nth_error steps j
       = Some {| pos := Z.of_nat j;
                 cursor := if keylen =? 0 then Z.of_nat j
                           else Z.of_nat j mod keylen;
                 key_read := inBounds (nth j p 0);
                 next_cursor := (if keylen =? 0 then Z.of_nat j
                                 else Z.of_nat j mod keylen) + 1 |}.
Proof.
  cbv zeta.
  rewrite (vigenere_run_any char_signed beyond p k Wp Wk). cbn [text_steps].
  split; [now rewrite length_map, length_seq |].
  intros j Hj. rewrite nth_error_map, nth_error_seq.
  replace (j <? List.length p)%nat with true
    by (symmetry; now apply Nat.ltb_lt).
  cbn [option_map Nat.add]. unfold step_at.
  destruct (Z.of_nat (List.length k) =? 0) eqn:T; [| reflexivity].
  apply Z.eqb_eq in T. rewrite T, Z.mod_0_r. reflexivity.
Qed.

Lemma vigenere_one_turn_per_character_witness :
  List.length (text_steps (vigenere true (fun _ _ => 0)
                             (Some (chars "a b!c")) (Some [])))
  = 5%nat.
Proof.
  destruct (vigenere_one_turn_per_character true (fun _ _ => 0)
              (chars "a b!c") [] eq_refl eq_refl) as [E _].
  rewrite E. reflexivity.
Defined.
